(** * S3Store: a certmagic storage backend on S3, and its lock protocol

    A shallow embedding of [s3storage.go].

    - The store talks to S3 through the SDK client, to the clock through
      package [time] and to the log; these are kept abstract as the calls
      a program issues ([call], [prog]), and a [backend] answers them.
      Running a program gives its result, the final state of the backend
      and the events in order, so that statements can speak of every
      backend, including ones where other clients change the bucket
      between two requests of the store.
    - Paths are built with [path/filepath] in its Unix flavour (the
      separator is the slash); [Clean] is modelled byte by byte after the
      library's loop.  [Duration.String] is modelled after the library
      as well, since the deadlock error prints a duration.
    - There is one clock: wall and monotonic readings agree.
    - The [for] loop of [Lock] is cut after a number of rounds given as
      an extra argument; [None] stands for "still looping".
    - [StorageKeys.Safe] belongs to certmagic and is a parameter. *)

From Stdlib Require Import ZArith Lia Bool List Ascii String.
From stdpp Require Import base option list gmap strings pretty.

Open Scope string_scope.

(** ** Package [strings] *)

Module strings.

(** [strings.HasPrefix s prefix]: [s] begins with [prefix]. *)
Fixpoint HasPrefix (s prefix : string) {struct prefix} : bool :=
  match prefix with
  | EmptyString => true
  | String p prefix' =>
      match s with
      | EmptyString => false
      | String c s' => Ascii.eqb c p && HasPrefix s' prefix'
      end
  end.

(** [strings.Join elems sep]. *)
Fixpoint Join (elems : list string) (sep : string) : string :=
  match elems with
  | [] => ""
  | [e] => e
  | e :: rest => e ++ sep ++ Join rest sep
  end.

End strings.

(** ** Package [path/filepath] on Unix *)

Module filepath.

Definition Separator : ascii := "/"%char.

(** [os.IsPathSeparator]. *)
Definition IsPathSeparator (c : ascii) : bool := Ascii.eqb c Separator.

Definition is_dot (c : ascii) : bool := Ascii.eqb c "."%char.

(** [filepath.FromSlash]: the identity when the separator is the slash. *)
Definition FromSlash (path : string) : string :=
  if Ascii.eqb Separator "/"%char then path
  else string_of_list_ascii
         (map (fun c => if Ascii.eqb c "/"%char then Separator else c)
              (list_ascii_of_string path)).

(** [r+k == n || os.IsPathSeparator(path[r+k])] on the bytes not yet read. *)
Definition at_end_or_sep (p : list ascii) : bool :=
  match p with
  | [] => true
  | c :: _ => IsPathSeparator c
  end.

(** The output buffer of [Clean] ([lazybuf]) is kept as the [w] bytes
    written so far, the last one first.  [backtrack] is
    [out.w--; for out.w > dotdot && !IsPathSeparator(out.index(out.w)) { out.w-- }]. *)
Fixpoint backtrack (out : list ascii) (dotdot : nat) : list ascii :=
  match out with
  | [] => []
  | c :: rest =>
      if (dotdot <? length rest)%nat && negb (IsPathSeparator c)
      then backtrack rest dotdot
      else rest
  end.

(** The bytes of a path element, up to the next separator, and the rest. *)
Fixpoint element (p : list ascii) : list ascii * list ascii :=
  match p with
  | [] => ([], [])
  | c :: p' =>
      if IsPathSeparator c then ([], p)
      else let '(e, rest) := element p' in (c :: e, rest)
  end.

(** The main loop of [Clean], [for r < n { switch ... }], on the bytes
    still to read.  Every round reads at least one byte, so [length path]
    rounds are enough. *)
Fixpoint clean_loop (fuel : nat) (rooted : bool)
         (path out : list ascii) (dotdot : nat) : list ascii :=
  match fuel with
  | O => out
  | S fuel' =>
      match path with
      | [] => out
      | c :: p1 =>
          if IsPathSeparator c then
            (* empty path element *)
            clean_loop fuel' rooted p1 out dotdot
          else if is_dot c && at_end_or_sep p1 then
            (* . element *)
            clean_loop fuel' rooted p1 out dotdot
          else if is_dot c
                  && match p1 with
                     | c1 :: p2 => is_dot c1 && at_end_or_sep p2
                     | [] => false
                     end then
            (* .. element: remove to last separator *)
            let p2 := tl p1 in
            if (dotdot <? length out)%nat then
              (* can backtrack *)
              clean_loop fuel' rooted p2 (backtrack out dotdot) dotdot
            else if negb rooted then
              (* cannot backtrack, but not rooted, so append .. element *)
              let out1 :=
                if (0 <? length out)%nat then Separator :: out else out in
              let out2 := "."%char :: "."%char :: out1 in
              clean_loop fuel' rooted p2 out2 (length out2)
            else clean_loop fuel' rooted p2 out dotdot
          else
            (* real path element: add slash if needed, copy element *)
            let out1 :=
              if (rooted && negb (length out =? 1)%nat)
                 || (negb rooted && negb (length out =? 0)%nat)
              then Separator :: out else out in
            let '(e, rest) := element path in
            clean_loop fuel' rooted rest (rev e ++ out1) dotdot
      end
  end.

(** [filepath.Clean]; there is no volume name on Unix. *)
Definition Clean (path : string) : string :=
  match list_ascii_of_string path with
  | [] => "."
  | (c :: p1) as p =>
      let rooted := IsPathSeparator c in
      let out :=
        if rooted then clean_loop (length p) rooted p1 [Separator] 1
        else clean_loop (length p) rooted p [] 0 in
      (* Turn empty string into "." *)
      let out := if (length out =? 0)%nat then ["."%char] else out in
      FromSlash (string_of_list_ascii (rev out))
  end.

(** [filepath.Join]: skip the leading empty elements, join the rest with
    the separator and clean the result. *)
Fixpoint Join (elem : list string) : string :=
  match elem with
  | [] => ""
  | e :: rest =>
      if String.eqb e "" then Join rest
      else Clean (strings.Join elem (String Separator ""))
  end.

End filepath.

(** ** Package [time] *)

Module time.

Local Open Scope Z_scope.

(** A [Duration] is an [int64] count of nanoseconds; a [Time] is an
    instant, counted in nanoseconds on one clock. *)
Definition Duration := Z.
Definition Time := Z.

Definition Nanosecond : Duration := 1.
Definition Microsecond : Duration := 1000 * Nanosecond.
Definition Millisecond : Duration := 1000 * Microsecond.
Definition Second : Duration := 1000 * Millisecond.
Definition Minute : Duration := 60 * Second.
Definition Hour : Duration := 60 * Minute.

Definition minDuration : Duration := - 2 ^ 63.
Definition maxDuration : Duration := 2 ^ 63 - 1.

(** [t.Sub(u)]: the difference, or the nearest representable duration. *)
Definition Sub (t u : Time) : Duration :=
  let d := t - u in
  if d <? minDuration then minDuration
  else if maxDuration <? d then maxDuration
  else d.

(** [fmtFrac]: the last [prec] decimal digits of [v] as a fraction,
    without trailing zeros, written in front of [buf]. *)
Fixpoint fmtFrac (prec : nat) (v : Z) (print : bool) (buf : string)
  : string * Z :=
  match prec with
  | O => (if print then String "."%char buf else buf, v)
  | S prec' =>
      let digit := v mod 10 in
      let print := print || negb (digit =? 0) in
      fmtFrac prec' (v / 10) print
              (if print
               then String (ascii_of_nat (Z.to_nat digit + 48)) buf
               else buf)
  end.

(** [fmtInt]: [v] in decimal, written in front of [buf]. *)
Definition fmtInt (v : Z) (buf : string) : string :=
  pretty (Z.to_N v) ++ buf.

(** [Duration.String], as in [72h3m0.5s]. *)
Definition String_ (d : Duration) : string :=
  let u := Z.abs d in
  let neg := d <? 0 in
  let body :=
    if u <? Second then
      if u =? 0 then "0s"
      else
        let '(prec, unit) :=
          if u <? Microsecond then (0%nat, "ns")
          else if u <? Millisecond
               then (3%nat, String (ascii_of_nat 194)
                              (String (ascii_of_nat 181) "s"))
               else (6%nat, "ms") in
        let '(buf, u) := fmtFrac prec u false unit in
        fmtInt u buf
    else
      let '(buf, u) := fmtFrac 9 u false "s" in
      (* u is now integer seconds *)
      let buf := fmtInt (u mod 60) buf in
      let u := u / 60 in
      (* u is now integer minutes *)
      if 0 <? u then
        let buf := fmtInt (u mod 60) (String "m"%char buf) in
        let u := u / 60 in
        (* u is now integer hours *)
        if 0 <? u then fmtInt u (String "h"%char buf) else buf
      else buf in
  if neg then String "-"%char body else body.

End time.

Abbreviation Duration := time.Duration.
Abbreviation Time := time.Time.

(** ** Errors *)

(** The values of Go's [error] interface that flow through the store. *)
Inductive error : Type :=
| NoSuchKey (msg : string)     (* an SDK error that is a [*types.NoSuchKey] *)
| OpError (msg : string)       (* any other error of the SDK client *)
| Canceled                     (* [context.Canceled] *)
| DeadlineExceeded             (* [context.DeadlineExceeded] *)
| errorString (msg : string).  (* made by [fmt.Errorf], no [%w] *)

(** [err.Error()]. *)
Definition Error (err : error) : string :=
  match err with
  | NoSuchKey msg => msg
  | OpError msg => msg
  | Canceled => "context canceled"
  | DeadlineExceeded => "context deadline exceeded"
  | errorString msg => msg
  end.

(** [errors.As(err, &nsk)] with [nsk] a [*types.NoSuchKey]. *)
Definition As_NoSuchKey (err : error) : bool :=
  match err with
  | NoSuchKey _ => true
  | _ => false
  end.

(** A [context.Context], as far as a callee can see it: what [ctx.Err()]
    answers at each instant. *)
Record Context : Type := { ctx_Err : Time -> option error }.

(** ** The S3 client and the other effects *)

Record GetObjectInput := { get_Bucket : string; get_Key : string }.
Record PutObjectInput :=
  { put_Bucket : string; put_Key : string; put_Body : string }.
Record DeleteObjectInput := { del_Bucket : string; del_Key : string }.
Record ListObjectsInput := { list_Bucket : string; list_Prefix : string }.

(** [Body] is read with [ioutil.ReadAll], which gives the bytes or fails. *)
Record GetObjectOutput :=
  { Body : string + error; ContentLength : Z; LastModified : Time }.

Record ListedObject := { Key : string; Size : Z; Modified_at : Time }.
Record ListObjectsOutput := { Contents : list ListedObject }.

(** [cm.KeyInfo]. *)
Record KeyInfo :=
  { info_Key : string; info_Size : Z; info_Modified : Time;
    info_IsTerminal : bool }.

(** What the store asks of its environment, with the type of the answer. *)
Inductive call : Type -> Type :=
| GetObject (input : GetObjectInput) : call (GetObjectOutput + error)
| PutObject (input : PutObjectInput) : call (option error)
| DeleteObject (input : DeleteObjectInput) : call (option error)
| ListObjects (input : ListObjectsInput) : call (ListObjectsOutput + error)
| Now : call Time
| Sleep (d : Duration) : call unit
| Println (msg : string) : call unit
| LogPrintf (msg : string) : call unit.

(** A call together with its answer. *)
Inductive event : Type :=
| EvGetObject (input : GetObjectInput) (r : GetObjectOutput + error)
| EvPutObject (input : PutObjectInput) (r : option error)
| EvDeleteObject (input : DeleteObjectInput) (r : option error)
| EvListObjects (input : ListObjectsInput) (r : ListObjectsOutput + error)
| EvNow (t : Time)
| EvSleep (d : Duration)
| EvPrintln (msg : string)
| EvLogPrintf (msg : string).

Definition event_of {X : Type} (c : call X) : X -> event :=
  match c in call X return X -> event with
  | GetObject input => EvGetObject input
  | PutObject input => EvPutObject input
  | DeleteObject input => EvDeleteObject input
  | ListObjects input => EvListObjects input
  | Now => EvNow
  | Sleep d => fun _ => EvSleep d
  | Println msg => fun _ => EvPrintln msg
  | LogPrintf msg => fun _ => EvLogPrintf msg
  end.

(** Programs: a result, or a call and what to do with its answer. *)
Inductive prog (A : Type) : Type :=
| Ret (a : A)
| Vis {X : Type} (c : call X) (k : X -> prog A).

Arguments Ret {A} a.
Arguments Vis {A X} c k.

Fixpoint bind {A B : Type} (m : prog A) (f : A -> prog B) : prog B :=
  match m with
  | Ret a => f a
  | Vis c k => Vis c (fun x => bind (k x) f)
  end.

Definition perform {X : Type} (c : call X) : prog X := Vis c Ret.

Declare Scope prog_scope.
Delimit Scope prog_scope with prog.
Bind Scope prog_scope with prog.
Notation "x <- m ;; k" := (bind m (fun x => k))
  (at level 100, m at next level, right associativity) : prog_scope.
Notation "m ;;; k" := (bind m (fun _ => k))
  (at level 100, right associativity) : prog_scope.
Open Scope prog_scope.

(** A backend answers every call and moves to its next state. *)
Definition backend (W : Type) : Type := forall X : Type, call X -> W -> X * W.

(** Running a program on a backend: the result, the final state and the
    events in the order they happened. *)
Fixpoint run {W A : Type} (h : backend W) (p : prog A) (w : W)
  : A * W * list event :=
  match p with
  | Ret a => (a, w, [])
  | Vis c k =>
      let '(x, w1) := h _ c w in
      let '(a, w2, t) := run h (k x) w1 in
      (a, w2, event_of c x :: t)
  end.

(** [time.Since(t)]. *)
Definition Since (t : Time) : prog Duration :=
  now <- perform Now ;; Ret (time.Sub now t).

(** ** The store *)

Definition lockFileExists : string := "Lock file for already exists".

(** [staleLockDuration] is the length of time before considering a lock
    to be stale. *)
Definition staleLockDuration : Duration := (2 * time.Hour)%Z.

(** [fileLockPollInterval] is how frequently to check the existence of a
    lock file. *)
Definition fileLockPollInterval : Duration := (1 * time.Second)%Z.

(** The zero [time.Time], January 1 of year 1, on the clock of [Time]. *)
Definition zeroTime : Time := (- 62135596800 * time.Second)%Z.

Record S3Store : Type := { prefix : string; bucket : string }.

(** [NewS3Store], once the SDK configuration has loaded.  The constructor
    with credentials builds the same value. *)
Definition NewS3Store (bucketName region : string) : S3Store :=
  {| bucket := bucketName; prefix := "certmagic" |}.

Definition NewS3StoreWithCredentials
           (accessKey secretKey bucketName region : string) : S3Store :=
  {| bucket := bucketName; prefix := "certmagic" |}.

(** How a round of a [for] loop ends. *)
Inductive flow : Type :=
| Continue
| Return (err : option error).

Section Store.

(** [StorageKeys.Safe], certmagic's sanitizer of key components. *)
Variable Safe : string -> string.

(** [Filename] returns the key as a path prefixed by the store's prefix. *)
Definition Filename (s : S3Store) (key : string) : string :=
  filepath.Join [prefix s; filepath.FromSlash key].

(** [Exists] returns true if key exists in s3. *)
Definition Exists (s : S3Store) (key : string) : prog bool :=
  r <- perform (GetObject {| get_Bucket := bucket s;
                             get_Key := Filename s key |}) ;;
  match r with
  | inl _ => Ret true
  | inr err => Ret (negb (As_NoSuchKey err))
  end.

(** [Store] saves value at key. *)
Definition Store (s : S3Store) (key value : string) : prog (option error) :=
  let filename := Filename s key in
  err <- perform (PutObject {| put_Bucket := bucket s;
                               put_Key := filename;
                               put_Body := value |}) ;;
  match err with
  | Some err => Ret (Some err)
  | None => Ret None
  end.

(** [Load] retrieves the value at key. *)
Definition Load (s : S3Store) (key : string)
  : prog (option string * option error) :=
  r <- perform (GetObject {| get_Bucket := bucket s;
                             get_Key := Filename s key |}) ;;
  match r with
  | inr err => Ret (None, Some err)
  | inl result =>
      match Body result with
      | inr err => Ret (None, Some err)
      | inl b => Ret (Some b, None)
      end
  end.

(** [Delete] deletes the value at key. *)
Definition Delete (s : S3Store) (key : string) : prog (option error) :=
  err <- perform (DeleteObject {| del_Bucket := bucket s;
                                  del_Key := Filename s key |}) ;;
  match err with
  | Some err => Ret (Some err)
  | None => Ret None
  end.

(** The loop of [List]: the keys that begin with [prefix], in order. *)
Definition List_keys (prefix : string) (contents : list ListedObject)
  : list string :=
  fold_left
    (fun keys k =>
       if strings.HasPrefix (Key k) prefix then (keys ++ [Key k])%list
       else keys)
    contents [].

(** [List] returns all keys that match prefix. *)
Definition List (s : S3Store) (prefix : string) (recursive : bool)
  : prog (list string * option error) :=
  let prefixPath := Filename s prefix in
  r <- perform (ListObjects {| list_Bucket := bucket s;
                               list_Prefix := prefixPath |}) ;;
  match r with
  | inr err => Ret ([], Some err)
  | inl result => Ret (List_keys prefix (Contents result), None)
  end.

(** [Stat] returns information about key. *)
Definition Stat (s : S3Store) (key : string)
  : prog (KeyInfo * option error) :=
  r <- perform (GetObject {| get_Bucket := bucket s; get_Key := key |}) ;;
  match r with
  | inr err =>
      Ret ({| info_Key := ""; info_Size := 0; info_Modified := zeroTime;
              info_IsTerminal := false |}, Some err)
  | inl result =>
      Ret ({| info_Key := key;
              info_Size := ContentLength result;
              info_Modified := LastModified result;
              info_IsTerminal := true |}, None)
  end.

Definition String_ (s : S3Store) : string := "S3Storage:" ++ prefix s.

Definition lockDir (s : S3Store) : string :=
  filepath.Join [prefix s; "locks"].

Definition lockFileName (s : S3Store) (key : string) : string :=
  filepath.Join [lockDir s; Safe key ++ ".lock"].

Definition fileLockIsStale (s : S3Store) (info : KeyInfo) : prog bool :=
  d <- Since (info_Modified info) ;;
  Ret (staleLockDuration <? d)%Z.

Definition createLockFile (s : S3Store) (filename : string)
  : prog (option error) :=
  exists_ <- Exists s filename ;;
  if exists_ then Ret (Some (errorString lockFileExists))
  else
    err <- perform (PutObject {| put_Bucket := bucket s;
                                 put_Key := filename;
                                 put_Body := "lock" |}) ;;
    match err with
    | Some err => Ret (Some err)
    | None => Ret None
    end.

Definition deleteLockFile (s : S3Store) (keyPath : string)
  : prog (option error) :=
  err <- perform (DeleteObject {| del_Bucket := bucket s;
                                  del_Key := keyPath |}) ;;
  match err with
  | Some err => Ret (Some err)
  | None => Ret None
  end.

Definition errNoSuchKey (s : S3Store) (err : option error) : bool :=
  match err with
  | Some err => if As_NoSuchKey err then true else false
  | None => false
  end.

(** One round of the [for] loop of [Lock]. *)
Definition Lock_round (s : S3Store) (key lockFile : string) (start : Time)
  : prog flow :=
  err <- createLockFile s lockFile ;;
  match err with
  | None =>
      (* got the lock, yay *)
      Ret (Return None)
  | Some err =>
      if negb (String.eqb (Error err) lockFileExists) then
        (* unexpected error *)
        perform (Println (Error err)) ;;;
        Ret (Return (Some (errorString
                             ("creating lock file: " ++ Error err))))
      else
        (* lock file already exists *)
        r <- Stat s lockFile ;;
        let '(info, err) := r in
        if errNoSuchKey s err then
          (* must have just been removed; try again to create it *)
          Ret Continue
        else
          match err with
          | Some err =>
              (* unexpected error *)
              Ret (Return (Some (errorString
                                   ("accessing lock file: " ++ Error err))))
          | None =>
              stale <- fileLockIsStale s info ;;
              if stale then
                perform (LogPrintf
                           ("[INFO][" ++ String_ s ++ "] Lock for '" ++ key
                            ++ "' is stale; removing then retrying: "
                            ++ lockFile)) ;;;
                deleteLockFile s lockFile ;;;
                Ret Continue
              else
                d <- Since start ;;
                if (staleLockDuration * 2 <? d)%Z then
                  (* should never happen, hopefully *)
                  d' <- Since start ;;
                  Ret (Return (Some (errorString
                                       ("possible deadlock: "
                                        ++ time.String_ d'
                                        ++ " passed trying to obtain lock for "
                                        ++ key))))
                else
                  (* lockfile exists and is not stale;
                     just wait a moment and try again *)
                  perform (Sleep fileLockPollInterval) ;;;
                  Ret Continue
          end
  end.

(** The loop of [Lock], cut after [rounds] rounds: [None] when it is
    still running then. *)
Fixpoint Lock_loop (rounds : nat) (s : S3Store) (key lockFile : string)
         (start : Time) : prog (option (option error)) :=
  match rounds with
  | O => Ret None
  | S rounds' =>
      f <- Lock_round s key lockFile start ;;
      match f with
      | Return err => Ret (Some err)
      | Continue => Lock_loop rounds' s key lockFile start
      end
  end.

(** [Lock] obtains a lock named by the given key.  It blocks until the
    lock can be obtained or an error is returned. *)
Definition Lock (rounds : nat) (s : S3Store) (ctx : Context) (key : string)
  : prog (option (option error)) :=
  start <- perform Now ;;
  let lockFile := lockFileName s key in
  Lock_loop rounds s key lockFile start.

(** [Unlock] releases the lock for name. *)
Definition Unlock (s : S3Store) (key : string) : prog (option error) :=
  deleteLockFile s (lockFileName s key).

End Store.

(** ** A reference backend

    One bucket that keeps the contract the store expects of S3: a read of
    an absent key fails with [NoSuchKey], a write stamps the object with
    the current time, a delete succeeds whether or not the key is there,
    and a listing is complete.  Every request takes [latency]; [Sleep]
    lets the clock run. *)

Record Object : Type := { obj_Body : string; obj_Modified : Time }.

Record Bucket : Type :=
  { objects : gmap string Object; clock : Time; latency : Duration }.

Definition tick (d : Duration) (w : Bucket) : Bucket :=
  {| objects := objects w; clock := (clock w + Z.max 0 d)%Z;
     latency := latency w |}.

Definition set_objects (m : gmap string Object) (w : Bucket) : Bucket :=
  {| objects := m; clock := clock w; latency := latency w |}.

Definition noSuchKey : error :=
  NoSuchKey "NoSuchKey: The specified key does not exist.".

Definition output_of (o : Object) : GetObjectOutput :=
  {| Body := inl (obj_Body o);
     ContentLength := Z.of_nat (String.length (obj_Body o));
     LastModified := obj_Modified o |}.

Definition listed (prefix : string) (m : gmap string Object)
  : list ListedObject :=
  omap (fun '(k, o) =>
          if strings.HasPrefix k prefix
          then Some {| Key := k;
                       Size := Z.of_nat (String.length (obj_Body o));
                       Modified_at := obj_Modified o |}
          else None)
       (map_to_list m).

Definition s3 : backend Bucket :=
  fun X c =>
    match c in call X return Bucket -> X * Bucket with
    | GetObject input => fun w =>
        let w := tick (latency w) w in
        (match objects w !! get_Key input with
         | Some o => inl (output_of o)
         | None => inr noSuchKey
         end, w)
    | PutObject input => fun w =>
        let w := tick (latency w) w in
        (None,
         set_objects (<[put_Key input :=
                          {| obj_Body := put_Body input;
                             obj_Modified := clock w |}]> (objects w)) w)
    | DeleteObject input => fun w =>
        let w := tick (latency w) w in
        (None, set_objects (delete (del_Key input) (objects w)) w)
    | ListObjects input => fun w =>
        let w := tick (latency w) w in
        (inl {| Contents := listed (list_Prefix input) (objects w) |}, w)
    | Now => fun w => (clock w, w)
    | Sleep d => fun w => (tt, tick d w)
    | Println _ => fun w => (tt, w)
    | LogPrintf _ => fun w => (tt, w)
    end.

(** Other clients of the bucket act between the requests of the store:
    [env] is what they do before each call is served. *)
Definition interleave {W : Type} (env : W -> W) (h : backend W) : backend W :=
  fun X c w => h X c (env w).

(** A client that keeps rewriting the object at [path]. *)
Definition keep_fresh (path : string) (w : Bucket) : Bucket :=
  set_objects (<[path := {| obj_Body := "lock"; obj_Modified := clock w |}]>
                 (objects w)) w.

(** An outage: every read is refused. *)
Definition denied : backend Bucket :=
  fun X c =>
    match c in call X return Bucket -> X * Bucket with
    | GetObject input => fun w => (inr (OpError "AccessDenied: Access Denied"), w)
    | c => s3 _ c
    end.

(** The result, the final state and the events of a run. *)
Definition result {W A : Type} (r : A * W * list event) : A := r.1.1.
Definition final {W A : Type} (r : A * W * list event) : W := r.1.2.
Definition events {W A : Type} (r : A * W * list event) : list event := r.2.

(** An empty bucket at 2024-01-01T00:00:00Z, and a sanitizer that agrees
    with certmagic's on lower-case host names. *)
Definition empty_bucket : Bucket :=
  {| objects := ∅; clock := (1704067200 * time.Second)%Z; latency := 0%Z |}.

Definition plain_Safe (key : string) : string := key.

(** ** Worlds for the examples *)

Definition example_store : S3Store := NewS3Store "bucket" "us-east-1".

Definition background : Context := {| ctx_Err := fun _ => None |}.

Definition cancelled : Context := {| ctx_Err := fun _ => Some Canceled |}.

(** A context that is cancelled at the instant [t0]. *)
Definition cancelled_at (t0 : Time) : Context :=
  {| ctx_Err := fun t => if (t <? t0)%Z then None else Some Canceled |}.

(** A bucket that holds a marker for example.com, last written at
    [modified], and an object at the path [Exists] resolves the marker's
    path to. *)
Definition marked_bucket (modified : Time) : Bucket :=
  {| objects :=
       <["certmagic/certmagic/locks/example.com.lock" :=
           {| obj_Body := "shadow"; obj_Modified := clock empty_bucket |}]>
         (<["certmagic/locks/example.com.lock" :=
              {| obj_Body := "lock"; obj_Modified := modified |}]> ∅);
     clock := clock empty_bucket;
     latency := 0%Z |}.

(** A bucket like [marked_bucket] where every request takes half an hour. *)
Definition slow_marked_bucket : Bucket :=
  {| objects := objects (marked_bucket (clock empty_bucket));
     clock := clock empty_bucket;
     latency := (30 * time.Minute)%Z |}.

(** A bucket where every request takes an hour, with an object at the
    doubly prefixed path of the marker for example.com and no marker. *)
Definition shadowed_bucket : Bucket :=
  {| objects :=
       {["certmagic/certmagic/locks/example.com.lock" :=
           {| obj_Body := "shadow"; obj_Modified := clock empty_bucket |}]};
     clock := clock empty_bucket;
     latency := time.Hour |}.

(** The reference backend with a client that keeps the marker for
    example.com fresh. *)
Definition kept : backend Bucket :=
  interleave (keep_fresh "certmagic/locks/example.com.lock") s3.

(** A client that removes the object at [shadow] once the marker at
    [lockFile] is gone. *)
Definition drop_shadow (lockFile shadow : string) (w : Bucket) : Bucket :=
  match objects w !! lockFile with
  | Some _ => w
  | None => set_objects (delete shadow (objects w)) w
  end.

(** The reference backend with such a client for the marker of
    example.com. *)
Definition reclaimed : backend Bucket :=
  interleave (drop_shadow "certmagic/locks/example.com.lock"
                          "certmagic/certmagic/locks/example.com.lock") s3.

(** A bucket that holds nothing but the marker for example.com, just
    written. *)
Definition held_bucket : Bucket :=
  {| objects :=
       {["certmagic/locks/example.com.lock" :=
           {| obj_Body := "lock"; obj_Modified := clock empty_bucket |}]};
     clock := clock empty_bucket;
     latency := 0%Z |}.

(** ** Vocabulary of the statements *)

(** The requests of the store for one path. *)
Definition get_at (s : S3Store) (path : string)
  : call (GetObjectOutput + error) :=
  GetObject {| get_Bucket := bucket s; get_Key := path |}.

Definition del_at (s : S3Store) (path : string) : call (option error) :=
  DeleteObject {| del_Bucket := bucket s; del_Key := path |}.

Definition put_lock (s : S3Store) (path : string) : call (option error) :=
  PutObject {| put_Bucket := bucket s; put_Key := path; put_Body := "lock" |}.

(** What [Exists] makes of the backend's reply. *)
Definition found (r : GetObjectOutput + error) : bool :=
  match r with
  | inl _ => true
  | inr err => negb (As_NoSuchKey err)
  end.

(** The message [Lock] logs for a stale marker, and the message of its
    deadlock error. *)
Definition stale_msg (s : S3Store) (key lockFile : string) : string :=
  "[INFO][" ++ String_ s ++ "] Lock for '" ++ key
  ++ "' is stale; removing then retrying: " ++ lockFile.

Definition deadlock_msg (key : string) (d : Duration) : string :=
  "possible deadlock: " ++ time.String_ d
  ++ " passed trying to obtain lock for " ++ key.

Definition is_sleep (ev : event) : bool :=
  match ev with
  | EvSleep _ => true
  | _ => false
  end.

Definition is_now (ev : event) : bool :=
  match ev with
  | EvNow _ => true
  | _ => false
  end.

Definition is_delete (ev : event) : bool :=
  match ev with
  | EvDeleteObject _ _ => true
  | _ => false
  end.

(** The key an S3 request is for. *)
Definition request_key (ev : event) : option string :=
  match ev with
  | EvGetObject input _ => Some (get_Key input)
  | EvPutObject input _ => Some (put_Key input)
  | EvDeleteObject input _ => Some (del_Key input)
  | _ => None
  end.

(** What a round does after [createLockFile] has reported that the lock
    file exists, from the state [w1] it left. *)
Definition after_exists {W : Type} (h : backend W) (s : S3Store)
           (key lockFile : string) (start : Time) (w1 : W)
  : flow * W * list event :=
  let g := h _ (get_at s lockFile) w1 in
  match g.1 with
  | inr err =>
      (if As_NoSuchKey err then Continue
       else Return (Some (errorString ("accessing lock file: " ++ Error err))),
       g.2, [event_of (get_at s lockFile) g.1])
  | inl out =>
      let n1 := h _ Now g.2 in
      if (staleLockDuration <? n1.1 - LastModified out)%Z then
        let l := h _ (LogPrintf (stale_msg s key lockFile)) n1.2 in
        let d := h _ (del_at s lockFile) l.2 in
        (Continue, d.2,
         [event_of (get_at s lockFile) g.1; EvNow n1.1;
          EvLogPrintf (stale_msg s key lockFile);
          event_of (del_at s lockFile) d.1])
      else
        let n2 := h _ Now n1.2 in
        if (staleLockDuration * 2 <? n2.1 - start)%Z then
          let n3 := h _ Now n2.2 in
          (Return (Some (errorString
                           (deadlock_msg key (time.Sub n3.1 start)))),
           n3.2,
           [event_of (get_at s lockFile) g.1; EvNow n1.1; EvNow n2.1;
            EvNow n3.1])
        else
          let sl := h _ (Sleep fileLockPollInterval) n2.2 in
          (Continue, sl.2,
           [event_of (get_at s lockFile) g.1; EvNow n1.1; EvNow n2.1;
            EvSleep fileLockPollInterval])
  end.

(** [Stat] on the lock file, asked in [w1], observes no marker, or a marker
    that is stale at the clock reading taken for it. *)
Definition absent_or_stale {W : Type} (h : backend W) (s : S3Store)
           (lockFile : string) (w1 : W) : Prop :=
  match (h _ (get_at s lockFile) w1).1 with
  | inr err => As_NoSuchKey err = true
  | inl out =>
      (staleLockDuration
       < (h _ Now (h _ (get_at s lockFile) w1).2).1 - LastModified out)%Z
  end.

(** The state and the events such a round ends with. *)
Definition skip_outcome {W : Type} (h : backend W) (s : S3Store)
           (key lockFile : string) (w1 : W) : W * list event :=
  let g := h _ (get_at s lockFile) w1 in
  match g.1 with
  | inr err => (g.2, [event_of (get_at s lockFile) g.1])
  | inl out =>
      let n1 := h _ Now g.2 in
      let l := h _ (LogPrintf (stale_msg s key lockFile)) n1.2 in
      let d := h _ (del_at s lockFile) l.2 in
      (d.2, [event_of (get_at s lockFile) g.1; EvNow n1.1;
             EvLogPrintf (stale_msg s key lockFile);
             event_of (del_at s lockFile) d.1])
  end.

(** A round that reaches [Stat] and skips the guard. *)
Definition skips {W : Type} (h : backend W) (s : S3Store) (lockFile : string)
           (w : W) : Prop :=
  exists (e : error) (w1 : W) (t1 : list event),
    run h (createLockFile s lockFile) w = (Some e, w1, t1)
    /\ Error e = lockFileExists
    /\ absent_or_stale h s lockFile w1.

(** A round that reaches [Stat] and finds a marker that is not stale. *)
Definition found_fresh {W : Type} (h : backend W) (s : S3Store)
           (lockFile : string) (w : W) : Prop :=
  exists (e : error) (w1 : W) (t1 : list event) (out : GetObjectOutput),
    run h (createLockFile s lockFile) w = (Some e, w1, t1)
    /\ Error e = lockFileExists
    /\ (h _ (get_at s lockFile) w1).1 = inl out
    /\ ((h _ Now (h _ (get_at s lockFile) w1).2).1 - LastModified out
        <= staleLockDuration)%Z.

(** Acquisitions that always see a fresh marker: in every state [I] the
    loop can be in, creating the lock file reports that it exists and
    [Stat] finds a marker that is not stale at the next clock reading;
    [clk] is the time the backend's clock shows, it never runs backwards
    and [Sleep d] lets at least [d] pass. *)
Record kept_fresh {W : Type} (h : backend W) (s : S3Store)
       (lockFile : string) (I : W -> Prop) (clk : W -> Time) : Prop :=
  { kf_now : forall w, I w ->
      (h _ Now w).1 = clk w /\ I (h _ Now w).2
      /\ (clk w <= clk (h _ Now w).2)%Z;
    kf_sleep : forall w d, I w ->
      I (h _ (Sleep d) w).2 /\ (clk w + d <= clk (h _ (Sleep d) w).2)%Z;
    kf_create : forall w, I w ->
      exists (e : error) (w1 : W) (t1 : list event),
        run h (createLockFile s lockFile) w = (Some e, w1, t1)
        /\ Error e = lockFileExists /\ I w1 /\ (clk w <= clk w1)%Z;
    kf_stat : forall w, I w ->
      exists out : GetObjectOutput,
        (h _ (get_at s lockFile) w).1 = inl out
        /\ I (h _ (get_at s lockFile) w).2
        /\ (clk w <= clk (h _ (get_at s lockFile) w).2)%Z
        /\ (clk (h _ (get_at s lockFile) w).2 - LastModified out
            <= staleLockDuration)%Z }.

(** The events of a round hold no delete request, or they end with the
    one sent for a marker that [Stat] has just found stale. *)
Definition round_shape (s : S3Store) (key lockFile : string)
           (t : list event) : Prop :=
  forallb (fun ev => negb (is_delete ev)) t = true
  \/ exists (pre : list event) (out : GetObjectOutput) (now : Time)
            (r : option error),
      t = (pre ++ [EvGetObject {| get_Bucket := bucket s;
                                  get_Key := lockFile |} (inl out);
                   EvNow now;
                   EvLogPrintf (stale_msg s key lockFile);
                   EvDeleteObject {| del_Bucket := bucket s;
                                     del_Key := lockFile |} r])%list
      /\ forallb (fun ev => negb (is_delete ev)) pre = true
      /\ (staleLockDuration < now - LastModified out)%Z.

(** The errors [Lock] makes with [fmt.Errorf]: creation failed, [Stat]
    failed, or the deadlock guard tripped. *)
Definition lock_error (key : string) (err : error) : Prop :=
  (exists e : error, err = errorString ("creating lock file: " ++ Error e))
  \/ (exists e : error, err = errorString ("accessing lock file: " ++ Error e))
  \/ (exists d : Duration, err = errorString (deadlock_msg key d)).

(** What the loop has returned is nil or one of these errors. *)
Definition made_by_Errorf (key : string) (r : option (option error)) : Prop :=
  match r with
  | Some (Some err) => lock_error key err
  | _ => True
  end.

(** *** Keys that climb above the prefix *)

(** The elements of a path: the runs of bytes between its separators. *)
Fixpoint split_acc (cur p : list ascii) : list (list ascii) :=
  match p with
  | [] => [rev cur]
  | c :: p' =>
      if filepath.IsPathSeparator c then rev cur :: split_acc [] p'
      else split_acc (c :: cur) p'
  end.

Definition elements (p : list ascii) : list (list ascii) := split_acc [] p.

(** An element is skipped (empty or a dot), goes up (two dots), or names
    an entry. *)
Inductive kind : Type := Skip | Up | Name.

Definition kind_of (e : list ascii) : kind :=
  match e with
  | [] => Skip
  | [c] => if filepath.is_dot c then Skip else Name
  | [c1; c2] => if filepath.is_dot c1 && filepath.is_dot c2 then Up else Name
  | _ => Name
  end.

(** Walking the elements of a key from the root, with the names entered so
    far on a stack: [None] when an element goes up from the root. *)
Fixpoint walk (stack elems : list (list ascii)) : option (list (list ascii)) :=
  match elems with
  | [] => Some stack
  | e :: rest =>
      match kind_of e with
      | Skip => walk stack rest
      | Up => match stack with
              | [] => None
              | _ :: stack' => walk stack' rest
              end
      | Name => walk (e :: stack) rest
      end
  end.

(** The key climbs above the root it is resolved against. *)
Definition climbs (key : string) : bool :=
  match walk [] (elements (list_ascii_of_string key)) with
  | None => true
  | Some _ => false
  end.

Definition no_sep (e : list ascii) : Prop :=
  forallb (fun c => negb (filepath.IsPathSeparator c)) e = true.

Definition names (st : list (list ascii)) : Prop := Forall no_sep st.

(** A prefix that is one name, as [certmagic] is. *)
Definition segment (P : list ascii) : Prop :=
  forallb (fun c => negb (filepath.IsPathSeparator c)) P = true
  /\ kind_of P = Name.

Definition segment_str (P : string) : Prop :=
  segment (list_ascii_of_string P).

(** The buffer of [Clean] that holds the prefix [P] and the names [st],
    last byte first, and the path it stands for. *)
Definition render (P : list ascii) (st : list (list ascii)) : list ascii :=
  (flat_map (fun e => rev e ++ [filepath.Separator]) st ++ rev P)%list.

Definition path_of (P : list ascii) (st : list (list ascii)) : list ascii :=
  (P ++ concat (map (cons filepath.Separator) (rev st)))%list.

(** [Clean] of [P/k], on bytes. *)
Definition join_clean (P k : list ascii) : list ascii :=
  let out := filepath.clean_loop (length (P ++ filepath.Separator :: k)) false
                                 (P ++ filepath.Separator :: k) [] 0 in
  rev (if (length out =? 0)%nat then ["."%char] else out).

(** ** Vocabulary of the further properties *)

(** An element that names an entry. *)
Definition name (e : list ascii) : Prop := no_sep e /\ kind_of e = Name.

(** The normal form of a key that does not climb: its names, last first. *)
Definition normal_form (key : string) : option (list (list ascii)) :=
  walk [] (elements (list_ascii_of_string key)).

(** The object a write of [value] leaves in the bucket [w]. *)
Definition stored (value : string) (w : Bucket) : Object :=
  {| obj_Body := value; obj_Modified := clock (tick (latency w) w) |}.

(** The requests and pauses [Lock] may make for the lock file
    [lockFile]. *)
Definition lock_event (s : S3Store) (lockFile : string) (ev : event) : Prop :=
  match ev with
  | EvGetObject input _ =>
      input = {| get_Bucket := bucket s; get_Key := Filename s lockFile |}
      \/ input = {| get_Bucket := bucket s; get_Key := lockFile |}
  | EvPutObject input _ =>
      input = {| put_Bucket := bucket s; put_Key := lockFile;
                 put_Body := "lock" |}
  | EvDeleteObject input _ =>
      input = {| del_Bucket := bucket s; del_Key := lockFile |}
  | EvListObjects _ _ => False
  | EvSleep d => d = fileLockPollInterval
  | EvNow _ | EvPrintln _ | EvLogPrintf _ => True
  end.

(** The bucket holds an object at the path [Exists] resolves the lock file
    to, and a marker, if any, that was not written after [start]. *)
Definition behind_shadow (s : S3Store) (lockFile : string) (start : Time)
           (w : Bucket) : Prop :=
  is_Some (objects w !! Filename s lockFile)
  /\ forall o : Object,
      objects w !! lockFile = Some o -> (obj_Modified o <= start)%Z.

(** A bucket that cannot be written: every [PutObject] is refused. *)
Definition read_only : backend Bucket :=
  fun X c =>
    match c in call X return Bucket -> X * Bucket with
    | PutObject input => fun w =>
        (Some (OpError "AccessDenied: Access Denied"), w)
    | c => s3 _ c
    end.

(** * Properties *)

(** ** Running programs *)

Section Run.

Context {W : Type} (h : backend W).

Lemma run_bind {A B : Type} (m : prog A) (f : A -> prog B) (w : W) :
  run h (bind m f) w =
  let '(a, w1, t1) := run h m w in
  let '(b, w2, t2) := run h (f a) w1 in
  (b, w2, (t1 ++ t2)%list).
Proof.
  revert w. induction m as [a | X c k IH]; intros w; simpl.
  - destruct (run h (f a) w) as [[b w2] t2]. reflexivity.
  - destruct (h X c w) as [x w1]. rewrite IH.
    destruct (run h (k x) w1) as [[a w2] t1].
    destruct (run h (f a) w2) as [[b w3] t2]. reflexivity.
Qed.

Lemma run_perform {X : Type} (c : call X) (w : W) :
  run h (perform c) w = ((h X c w).1, (h X c w).2, [event_of c (h X c w).1]).
Proof. unfold perform. simpl. destruct (h X c w). reflexivity. Qed.

End Run.

(** ** The value store *)

Section ValueStore.

Context {W : Type} (h : backend W).

Lemma run_Exists (s : S3Store) (key : string) (w : W) :
  run h (Exists s key) w =
  (match (h _ (get_at s (Filename s key)) w).1 with
   | inl _ => true
   | inr err => negb (As_NoSuchKey err)
   end,
   (h _ (get_at s (Filename s key)) w).2,
   [EvGetObject {| get_Bucket := bucket s; get_Key := Filename s key |}
                (h _ (get_at s (Filename s key)) w).1]).
Proof.
  unfold Exists, get_at. rewrite run_bind, run_perform. simpl.
  destruct (h _ _ w) as [[out | err] w1]; reflexivity.
Qed.

Lemma run_Stat (s : S3Store) (key : string) (w : W) :
  run h (Stat s key) w =
  (match (h _ (get_at s key) w).1 with
   | inl out =>
       ({| info_Key := key; info_Size := ContentLength out;
           info_Modified := LastModified out; info_IsTerminal := true |},
        None)
   | inr err =>
       ({| info_Key := ""; info_Size := 0; info_Modified := zeroTime;
           info_IsTerminal := false |}, Some err)
   end,
   (h _ (get_at s key) w).2,
   [EvGetObject {| get_Bucket := bucket s; get_Key := key |}
                (h _ (get_at s key) w).1]).
Proof.
  unfold Stat, get_at. rewrite run_bind, run_perform. simpl.
  destruct (h _ _ w) as [[out | err] w1]; reflexivity.
Qed.

End ValueStore.

(** C1 (as amended).  [Exists] asks the backend for the object at the
    resolved path [Filename s key], once, and answers false exactly when
    the reply is a "not found" error; a reply with an object, and a reply
    with any other error, both make it answer true. *)
Theorem Exists_false_iff_NoSuchKey
        (W : Type) (h : backend W) (s : S3Store) (key : string) (w : W) :
  events (run h (Exists s key) w)
  = [EvGetObject {| get_Bucket := bucket s; get_Key := Filename s key |}
                 (h _ (get_at s (Filename s key)) w).1]
  /\ (result (run h (Exists s key) w) = false
      <-> exists err, (h _ (get_at s (Filename s key)) w).1 = inr err
                      /\ As_NoSuchKey err = true)
  /\ (forall out, (h _ (get_at s (Filename s key)) w).1 = inl out ->
                  result (run h (Exists s key) w) = true)
  /\ (forall err, (h _ (get_at s (Filename s key)) w).1 = inr err ->
                  As_NoSuchKey err = false ->
                  result (run h (Exists s key) w) = true).
Proof.
  rewrite run_Exists. unfold events, result. simpl.
  split; [reflexivity |].
  destruct (h _ _ w).1 as [out | err]; simpl.
  - split; [| split].
    + split; [discriminate | intros (err & E & _); discriminate].
    + reflexivity.
    + intros err E. discriminate.
  - split; [| split].
    + split.
      * intros E. exists err. split; [reflexivity |].
        destruct (As_NoSuchKey err); [reflexivity | discriminate].
      * intros (err' & E & Hn). injection E as <-. rewrite Hn. reflexivity.
    + intros out E. discriminate.
    + intros err' E Hn. injection E as <-. rewrite Hn. reflexivity.
Qed.

(** C1 as stated fails: during an outage the backend refuses the read with
    an error that is not "not found", no object is stored at the resolved
    path, and [Exists] answers true. *)
Lemma Exists_true_on_refused_read :
  (denied _ (get_at (NewS3Store "b" "r")
                    (Filename (NewS3Store "b" "r") "example.com"))
          empty_bucket).1
  = inr (OpError "AccessDenied: Access Denied")
  /\ As_NoSuchKey (OpError "AccessDenied: Access Denied") = false
  /\ objects empty_bucket !! Filename (NewS3Store "b" "r") "example.com" = None
  /\ result (run denied (Exists (NewS3Store "b" "r") "example.com")
                 empty_bucket) = true.
Proof. repeat split. Qed.

(** C4 (the code departs from it).  [Store], [Load], [Delete] and [Exists]
    address the object at [Filename s key]; [Stat] sends the key as it is.
    After storing a certificate the store can load it back, yet [Stat]
    on the same key reads another path and reports that there is no such
    key. *)
Theorem Stat_reads_unmapped_key :
  (forall (W : Type) (h : backend W) (s : S3Store) (key : string) (w : W),
      events (run h (Stat s key) w)
      = [EvGetObject {| get_Bucket := bucket s; get_Key := key |}
                     (h _ (get_at s key) w).1]
      /\ events (run h (Exists s key) w)
         = [EvGetObject {| get_Bucket := bucket s; get_Key := Filename s key |}
                        (h _ (get_at s (Filename s key)) w).1])
  /\ Filename (NewS3Store "b" "r") "example.com/cert.pem"
     = "certmagic/example.com/cert.pem"
  /\ result (run s3 (Store (NewS3Store "b" "r") "example.com/cert.pem" "PEM" ;;;
                     l <- Load (NewS3Store "b" "r") "example.com/cert.pem" ;;
                     e <- Exists (NewS3Store "b" "r") "example.com/cert.pem" ;;
                     i <- Stat (NewS3Store "b" "r") "example.com/cert.pem" ;;
                     Ret (l, e, i.2))
                 empty_bucket)
     = ((Some "PEM", None), true, Some noSuchKey).
Proof.
  split; [| split].
  - intros W h s key w. rewrite run_Stat, run_Exists. split; reflexivity.
  - reflexivity.
  - vm_compute. reflexivity.
Qed.

(** ** Listing *)

Lemma List_keys_filter (prefix : string) (contents : list ListedObject) :
  List_keys prefix contents
  = filter (fun k => strings.HasPrefix k prefix = true) (map Key contents).
Proof.
  unfold List_keys.
  enough (G : forall acc,
             fold_left
               (fun keys k =>
                  if strings.HasPrefix (Key k) prefix
                  then (keys ++ [Key k])%list else keys) contents acc
             = (acc ++ filter (fun k => strings.HasPrefix k prefix = true)
                              (map Key contents))%list)
    by apply (G []).
  induction contents as [| o contents IH]; intros acc; simpl.
  - rewrite app_nil_r. reflexivity.
  - rewrite IH, filter_cons.
    destruct (strings.HasPrefix (Key o) prefix) eqn:E.
    + rewrite decide_True by reflexivity. rewrite <- app_assoc. reflexivity.
    + rewrite decide_False by discriminate. reflexivity.
Qed.

Lemma map_Key_listed (prefix : string) (m : gmap string Object) :
  map Key (listed prefix m)
  = filter (fun k => strings.HasPrefix k prefix = true) (map fst (map_to_list m)).
Proof.
  unfold listed. induction (map_to_list m) as [| [k o] l IH]; [reflexivity |].
  simpl. rewrite filter_cons. simpl.
  destruct (strings.HasPrefix k prefix) eqn:E.
  - rewrite decide_True by reflexivity. simpl. f_equal. exact IH.
  - rewrite decide_False by discriminate. exact IH.
Qed.

Lemma run_List {W : Type} (h : backend W) (s : S3Store) (prefix : string)
      (recursive : bool) (w : W) :
  result (run h (List s prefix recursive) w)
  = match (h _ (ListObjects {| list_Bucket := bucket s;
                               list_Prefix := Filename s prefix |}) w).1 with
    | inl out => (List_keys prefix (Contents out), None)
    | inr err => ([], Some err)
    end.
Proof.
  unfold List. rewrite run_bind, run_perform. unfold result. simpl.
  destruct (h _ _ w) as [[out | err] w1]; reflexivity.
Qed.

(** C8.  [List] never looks at [recursive].  It returns the keys of the
    backend's answer that begin with the prefix as the caller wrote it;
    on a backend whose listing is complete these are exactly the stored
    keys that begin with the resolved prefix [Filename s prefix] and also
    with the raw [prefix]. *)
Theorem List_flat_and_filtered_twice
        (s : S3Store) (prefix : string) (recursive : bool) (w : Bucket) :
  List s prefix recursive = List s prefix (negb recursive)
  /\ (forall (W : Type) (h : backend W) (w' : W) (out : ListObjectsOutput),
         (h _ (ListObjects {| list_Bucket := bucket s;
                              list_Prefix := Filename s prefix |}) w').1
         = inl out ->
         result (run h (List s prefix recursive) w')
         = (filter (fun k => strings.HasPrefix k prefix = true)
                   (map Key (Contents out)), None))
  /\ exists keys : list string,
      result (run s3 (List s prefix recursive) w) = (keys, None)
      /\ NoDup keys
      /\ forall k : string,
          k ∈ keys
          <-> is_Some (objects w !! k)
              /\ strings.HasPrefix k (Filename s prefix) = true
              /\ strings.HasPrefix k prefix = true.
Proof.
  split; [reflexivity |]. split.
  - intros W h w' out E. rewrite run_List, E, List_keys_filter. reflexivity.
  - rewrite run_List. simpl. eexists. split; [reflexivity |].
    rewrite List_keys_filter, map_Key_listed. split.
    + apply NoDup_filter, NoDup_filter, NoDup_fst_map_to_list.
    + intros k. rewrite !list_elem_of_filter. simpl.
      rewrite list_elem_of_fmap. split.
      * intros (Hraw & Hres & ([k' o] & -> & Hin)).
        apply elem_of_map_to_list in Hin. simpl in *.
        split; [exists o; exact Hin | split; assumption].
      * intros ([o Ho] & Hres & Hraw). split; [exact Hraw |].
        split; [exact Hres |]. exists (k, o). split; [reflexivity |].
        apply elem_of_map_to_list. exact Ho.
Qed.

(** ** Releasing a lock *)

Lemma run_deleteLockFile {W : Type} (h : backend W) (s : S3Store)
      (keyPath : string) (w : W) :
  run h (deleteLockFile s keyPath) w
  = ((h _ (DeleteObject {| del_Bucket := bucket s; del_Key := keyPath |}) w).1,
     (h _ (DeleteObject {| del_Bucket := bucket s; del_Key := keyPath |}) w).2,
     [EvDeleteObject {| del_Bucket := bucket s; del_Key := keyPath |}
        (h _ (DeleteObject {| del_Bucket := bucket s; del_Key := keyPath |}) w).1]).
Proof.
  unfold deleteLockFile. rewrite run_bind, run_perform. simpl.
  destruct (h _ _ w) as [[err |] w1]; reflexivity.
Qed.

(** C7.  [Unlock] hands the backend's answer to its delete request back to
    the caller.  On a backend that accepts the delete of an absent object,
    [Unlock] returns nil whether or not the marker is there, so a second
    [Unlock] in a row returns nil as well, a never-locked key is released
    without error, and releasing an absent marker changes nothing. *)
Theorem Unlock_idempotent
        (Safe : string -> string) (s : S3Store) (key : string) (w : Bucket) :
  (forall (W : Type) (h : backend W) (w' : W),
      result (run h (Unlock Safe s key) w')
      = (h _ (DeleteObject {| del_Bucket := bucket s;
                              del_Key := lockFileName Safe s key |}) w').1)
  /\ result (run s3 (Unlock Safe s key) w) = None
  /\ result (run s3 (Unlock Safe s key) (final (run s3 (Unlock Safe s key) w)))
     = None
  /\ objects (final (run s3 (Unlock Safe s key) w)) !! lockFileName Safe s key
     = None
  /\ (objects w !! lockFileName Safe s key = None ->
      objects (final (run s3 (Unlock Safe s key) w)) = objects w).
Proof.
  unfold Unlock. split; [| split; [| split; [| split]]].
  - intros W h w'. rewrite run_deleteLockFile. reflexivity.
  - rewrite run_deleteLockFile. reflexivity.
  - rewrite !run_deleteLockFile. reflexivity.
  - rewrite run_deleteLockFile. unfold final. simpl. apply lookup_delete_eq.
  - intros Habsent. rewrite run_deleteLockFile. unfold final. simpl.
    apply delete_id. exact Habsent.
Qed.

(** Releasing a key that was never locked, twice, in an empty bucket. *)
Lemma Unlock_idempotent_witness :
  result (run s3 (Unlock plain_Safe (NewS3Store "b" "r") "example.com")
              empty_bucket) = None
  /\ result (run s3 (Unlock plain_Safe (NewS3Store "b" "r") "example.com")
                 (final (run s3 (Unlock plain_Safe (NewS3Store "b" "r")
                                        "example.com") empty_bucket))) = None
  /\ objects (final (run s3 (Unlock plain_Safe (NewS3Store "b" "r")
                                    "example.com") empty_bucket))
     = objects empty_bucket.
Proof.
  pose proof (Unlock_idempotent plain_Safe (NewS3Store "b" "r") "example.com"
                                empty_bucket) as (_ & H1 & H2 & _ & H4).
  split; [exact H1 | split; [exact H2 |]].
  apply H4. reflexivity.
Defined.

(** ** Time *)

Lemma Sub_exceeds (t u : Time) (c : Duration) :
  (time.minDuration <= c < time.maxDuration)%Z ->
  (c <? time.Sub t u)%Z = (c <? t - u)%Z.
Proof.
  intros Hc. unfold time.Sub.
  destruct (t - u <? time.minDuration)%Z eqn:Elo.
  - apply Z.ltb_lt in Elo.
    transitivity false; [| symmetry]; apply Z.ltb_ge; lia.
  - apply Z.ltb_ge in Elo.
    destruct (time.maxDuration <? t - u)%Z eqn:Ehi; [| reflexivity].
    apply Z.ltb_lt in Ehi.
    transitivity true; [| symmetry]; apply Z.ltb_lt; lia.
Qed.

Lemma stale_in_range :
  (time.minDuration <= staleLockDuration < time.maxDuration)%Z.
Proof. vm_compute. split; [discriminate | reflexivity]. Qed.

Lemma stale2_in_range :
  (time.minDuration <= staleLockDuration * 2 < time.maxDuration)%Z.
Proof. vm_compute. split; [discriminate | reflexivity]. Qed.

(** ** One round of the lock loop *)

Section Round.

Context {W : Type} (h : backend W).
Variables (s : S3Store) (key lockFile : string) (start : Time).

Lemma run_Since (t : Time) (w : W) :
  run h (Since t) w
  = (time.Sub (h _ Now w).1 t, (h _ Now w).2, [EvNow (h _ Now w).1]).
Proof. unfold Since. rewrite run_bind, run_perform. reflexivity. Qed.

Lemma run_fileLockIsStale (info : KeyInfo) (w : W) :
  run h (fileLockIsStale s info) w
  = ((staleLockDuration <? (h _ Now w).1 - info_Modified info)%Z,
     (h _ Now w).2, [EvNow (h _ Now w).1]).
Proof.
  unfold fileLockIsStale. rewrite run_bind, run_Since. simpl.
  rewrite (Sub_exceeds _ _ _ stale_in_range). reflexivity.
Qed.

Lemma run_Lock_round (w : W) :
  run h (Lock_round s key lockFile start) w
  = let '(err, w1, t1) := run h (createLockFile s lockFile) w in
    match err with
    | None => (Return None, w1, t1)
    | Some e =>
        if negb (String.eqb (Error e) lockFileExists) then
          (Return (Some (errorString ("creating lock file: " ++ Error e))),
           (h _ (Println (Error e)) w1).2,
           (t1 ++ [EvPrintln (Error e)])%list)
        else
          let '(f, w2, t2) := after_exists h s key lockFile start w1 in (f, w2, (t1 ++ t2)%list)
    end.
Proof.
  unfold Lock_round. rewrite run_bind.
  destruct (run h (createLockFile s lockFile) w) as [[[e |] w1] t1].
  2: { simpl. rewrite app_nil_r. reflexivity. }
  destruct (negb (String.eqb (Error e) lockFileExists)).
  { rewrite run_bind, run_perform. simpl. reflexivity. }
  unfold after_exists, Stat, fileLockIsStale, Since, deleteLockFile, perform,
    get_at, del_at, stale_msg, deadlock_msg.
  simpl.
  repeat match goal with
         | E : h ?X ?c ?w' = _ |- context [h ?X ?c ?w'] => rewrite E; simpl
         | E : (?a <? ?b)%Z = _ |- context [(?a <? ?b)%Z] => rewrite E; simpl
         | |- context [(?c <? time.Sub ?t ?u)%Z] =>
             first [ rewrite (Sub_exceeds t u _ stale_in_range)
                   | rewrite (Sub_exceeds t u _ stale2_in_range) ]
         | |- context [h ?X ?c ?w'] =>
             is_var w'; destruct (h X c w') as [? ?] eqn:?; simpl
         | |- context [As_NoSuchKey ?e'] =>
             is_var e'; destruct (As_NoSuchKey e') eqn:?; simpl
         | |- context [(?a <? ?b)%Z] => destruct (a <? b)%Z eqn:?; simpl
         | |- context [match ?o with Some _ => _ | None => _ end] =>
             is_var o; destruct o; simpl
         | |- context [match ?r with inl _ => _ | inr _ => _ end] =>
             is_var r; destruct r; simpl
         end;
    reflexivity.
Qed.

End Round.

(** ** Creating the lock file, and the loop *)

Section Loop.

Context {W : Type} (h : backend W).
Variables (s : S3Store) (key lockFile : string) (start : Time).

Lemma run_createLockFile (filename : string) (w : W) :
  run h (createLockFile s filename) w
  = let g := h _ (get_at s (Filename s filename)) w in
    if found g.1 then
      (Some (errorString lockFileExists), g.2,
       [event_of (get_at s (Filename s filename)) g.1])
    else
      let p := h _ (put_lock s filename) g.2 in
      (p.1, p.2,
       [event_of (get_at s (Filename s filename)) g.1;
        event_of (put_lock s filename) p.1]).
Proof.
  unfold createLockFile. rewrite run_bind, run_Exists. simpl.
  unfold found, get_at, put_lock.
  destruct (h _ _ w) as [[out | err] w1]; simpl; [reflexivity |].
  destruct (As_NoSuchKey err); simpl; [| reflexivity].
  destruct (h _ _ w1) as [[e |] w2]; reflexivity.
Qed.

Lemma createLockFile_events (filename : string) (w : W) :
  forallb (fun ev => negb (is_sleep ev) && negb (is_now ev)
                     && negb (is_delete ev))
          (events (run h (createLockFile s filename) w)) = true.
Proof.
  rewrite run_createLockFile. simpl.
  destruct (found _); reflexivity.
Qed.

Lemma run_Lock_loop_S (rounds : nat) (w : W) :
  run h (Lock_loop (S rounds) s key lockFile start) w
  = let '(f, w1, t1) := run h (Lock_round s key lockFile start) w in
    match f with
    | Return err => (Some err, w1, t1)
    | Continue =>
        let '(r, w2, t2) := run h (Lock_loop rounds s key lockFile start) w1 in
        (r, w2, (t1 ++ t2)%list)
    end.
Proof.
  cbn [Lock_loop]. rewrite run_bind.
  destruct (run h (Lock_round s key lockFile start) w) as [[[| err] w1] t1].
  - destruct (run h (Lock_loop rounds s key lockFile start) w1) as [[r w2] t2].
    reflexivity.
  - simpl. rewrite app_nil_r. reflexivity.
Qed.

(** Once the loop has returned, more rounds change nothing. *)
Lemma Lock_loop_more (rounds extra : nat) (w : W) (err : option error) :
  result (run h (Lock_loop rounds s key lockFile start) w) = Some err ->
  run h (Lock_loop (rounds + extra) s key lockFile start) w
  = run h (Lock_loop rounds s key lockFile start) w.
Proof.
  revert w. induction rounds as [| rounds IH]; intros w Hr.
  - discriminate Hr.
  - change (S rounds + extra)%nat with (S (rounds + extra)).
    rewrite !run_Lock_loop_S in *.
    destruct (run h (Lock_round s key lockFile start) w) as [[[| e] w1] t1];
      [| reflexivity].
    rewrite IH; [reflexivity |].
    destruct (run h (Lock_loop rounds s key lockFile start) w1) as [[r w2] t2].
    exact Hr.
Qed.

End Loop.

(** C5.  In a round where creating the lock file reports that it exists,
    [Stat] finds the marker, and its last-modified time lies more than
    [staleLockDuration] (two hours) before the clock reading taken for
    it, the loop logs, sends the delete for the marker, and goes on to the
    next round whatever the delete answers: the round neither returns nor
    sleeps.  The loop then runs on from the state the delete left, and the
    next request it sends is the probe of [createLockFile]; when the probe
    finds no lock file the request after it is the write of the marker,
    and when that write is accepted [Lock] has the lock. *)
Theorem stale_marker_deleted_then_retried
        (W : Type) (h : backend W) (s : S3Store) (key lockFile : string)
        (start : Time) (w w1 : W) (e : error) (t1 : list event)
        (out : GetObjectOutput) :
  run h (createLockFile s lockFile) w = (Some e, w1, t1) ->
  Error e = lockFileExists ->
  (h _ (get_at s lockFile) w1).1 = inl out ->
  (staleLockDuration
   < (h _ Now (h _ (get_at s lockFile) w1).2).1 - LastModified out)%Z ->
  exists (w2 w3 : W) (now : Time),
    h _ Now (h _ (get_at s lockFile) w1).2 = (now, w2)
    /\ (h _ (LogPrintf (stale_msg s key lockFile)) w2).2 = w3
    /\ run h (Lock_round s key lockFile start) w
       = (Continue, (h _ (del_at s lockFile) w3).2,
          (t1 ++ [EvGetObject {| get_Bucket := bucket s; get_Key := lockFile |}
                              (inl out);
                  EvNow now;
                  EvLogPrintf (stale_msg s key lockFile);
                  EvDeleteObject {| del_Bucket := bucket s;
                                    del_Key := lockFile |}
                                 (h _ (del_at s lockFile) w3).1])%list)
    /\ forallb (fun ev => negb (is_sleep ev))
               (events (run h (Lock_round s key lockFile start) w)) = true
    /\ forall rounds : nat,
        let deleted := h _ (del_at s lockFile) w3 in
        let round :=
          (t1 ++ [EvGetObject {| get_Bucket := bucket s;
                                 get_Key := lockFile |} (inl out);
                  EvNow now;
                  EvLogPrintf (stale_msg s key lockFile);
                  EvDeleteObject {| del_Bucket := bucket s;
                                    del_Key := lockFile |} deleted.1])%list in
        let probe := h _ (get_at s (Filename s lockFile)) deleted.2 in
        let put := h _ (put_lock s lockFile) probe.2 in
        run h (Lock_loop (S rounds) s key lockFile start) w
        = (let '(r, w', t') :=
             run h (Lock_loop rounds s key lockFile start) deleted.2 in
           (r, w', (round ++ t')%list))
        /\ (exists rest : list event,
               events (run h (Lock_loop (S (S rounds)) s key lockFile start) w)
               = (round
                  ++ EvGetObject {| get_Bucket := bucket s;
                                    get_Key := Filename s lockFile |} probe.1
                  :: rest)%list)
        /\ (found probe.1 = false ->
            exists rest : list event,
              events (run h (Lock_loop (S (S rounds)) s key lockFile start) w)
              = (round
                 ++ EvGetObject {| get_Bucket := bucket s;
                                   get_Key := Filename s lockFile |} probe.1
                 :: EvPutObject {| put_Bucket := bucket s;
                                   put_Key := lockFile;
                                   put_Body := "lock" |} put.1
                 :: rest)%list)
        /\ (found probe.1 = false -> put.1 = None ->
            run h (Lock_loop (S (S rounds)) s key lockFile start) w
            = (Some None, put.2,
               (round
                ++ [EvGetObject {| get_Bucket := bucket s;
                                   get_Key := Filename s lockFile |} probe.1;
                    EvPutObject {| put_Bucket := bucket s;
                                   put_Key := lockFile;
                                   put_Body := "lock" |} None])%list)).
Proof.
  intros Hcreate Hmsg Hget Hstale.
  destruct (h _ Now (h _ (get_at s lockFile) w1).2) as [now w2] eqn:Enow.
  exists w2, (h _ (LogPrintf (stale_msg s key lockFile)) w2).2, now.
  split; [reflexivity |]. split; [reflexivity |].
  assert (Hround :
            run h (Lock_round s key lockFile start) w
            = (Continue,
               (h _ (del_at s lockFile)
                  (h _ (LogPrintf (stale_msg s key lockFile)) w2).2).2,
               (t1 ++ [EvGetObject {| get_Bucket := bucket s;
                                      get_Key := lockFile |} (inl out);
                       EvNow now;
                       EvLogPrintf (stale_msg s key lockFile);
                       EvDeleteObject
                         {| del_Bucket := bucket s; del_Key := lockFile |}
                         (h _ (del_at s lockFile)
                            (h _ (LogPrintf (stale_msg s key lockFile))
                               w2).2).1])%list)).
  { apply Z.ltb_lt in Hstale. simpl in Hstale.
    rewrite run_Lock_round, Hcreate, Hmsg, String.eqb_refl. simpl.
    unfold after_exists. rewrite Hget. simpl. rewrite Enow. simpl.
    rewrite Hstale. reflexivity. }
  split; [exact Hround |]. split.
  - rewrite Hround. unfold events. simpl. rewrite forallb_app. simpl.
    rewrite andb_true_r.
    pose proof (createLockFile_events h s lockFile w) as Hev.
    rewrite Hcreate in Hev. unfold events in Hev. simpl in Hev.
    apply forallb_forall. intros ev Hin.
    rewrite forallb_forall in Hev. specialize (Hev ev Hin).
    rewrite !andb_true_iff in Hev. tauto.
  - intros rounds deleted round probe put.
    assert (Hloop : forall n : nat,
               run h (Lock_loop (S n) s key lockFile start) w
               = (let '(r, w', t') :=
                    run h (Lock_loop n s key lockFile start) deleted.2 in
                  (r, w', (round ++ t')%list))).
    { intros n. rewrite run_Lock_loop_S, Hround. reflexivity. }
    assert (Hnext :
              run h (Lock_round s key lockFile start) deleted.2
              = (if found probe.1 then
                   let '(f, w', t') :=
                     after_exists h s key lockFile start probe.2 in
                   (f, w',
                    (EvGetObject {| get_Bucket := bucket s;
                                    get_Key := Filename s lockFile |} probe.1
                     :: t')%list)
                 else
                   match put.1 with
                   | None =>
                       (Return None, put.2,
                        [EvGetObject {| get_Bucket := bucket s;
                                        get_Key := Filename s lockFile |}
                                     probe.1;
                         EvPutObject {| put_Bucket := bucket s;
                                        put_Key := lockFile;
                                        put_Body := "lock" |} None])
                   | Some e' =>
                       if negb (String.eqb (Error e') lockFileExists) then
                         (Return (Some (errorString
                                          ("creating lock file: "
                                           ++ Error e'))),
                          (h _ (Println (Error e')) put.2).2,
                          [EvGetObject {| get_Bucket := bucket s;
                                          get_Key := Filename s lockFile |}
                                       probe.1;
                           EvPutObject {| put_Bucket := bucket s;
                                          put_Key := lockFile;
                                          put_Body := "lock" |} (Some e');
                           EvPrintln (Error e')])
                       else
                         let '(f, w', t') :=
                           after_exists h s key lockFile start put.2 in
                         (f, w',
                          (EvGetObject {| get_Bucket := bucket s;
                                          get_Key := Filename s lockFile |}
                                       probe.1
                           :: EvPutObject {| put_Bucket := bucket s;
                                             put_Key := lockFile;
                                             put_Body := "lock" |} (Some e')
                           :: t')%list)
                   end)).
    { rewrite run_Lock_round, run_createLockFile. cbn zeta.
      fold probe. destruct (found probe.1).
      - change (negb (String.eqb (Error (errorString lockFileExists))
                                 lockFileExists)) with false.
        cbn iota.
        destruct (after_exists h s key lockFile start probe.2) as [[f w'] t'].
        reflexivity.
      - fold put. destruct put.1 as [e' |]; [| reflexivity].
        destruct (negb (String.eqb (Error e') lockFileExists));
          [reflexivity |].
        destruct (after_exists h s key lockFile start put.2) as [[f w'] t'].
        reflexivity. }
    split; [apply Hloop |].
    rewrite (Hloop (S rounds)), run_Lock_loop_S, Hnext.
    split; [| split].
    + destruct (found probe.1).
      * destruct (after_exists h s key lockFile start probe.2)
          as [[[| err] w'] t'].
        -- destruct (run h (Lock_loop rounds s key lockFile start) w')
             as [[r w''] t''].
           eexists. unfold events. simpl. reflexivity.
        -- eexists. unfold events. simpl. reflexivity.
      * destruct put.1 as [e' |].
        -- destruct (negb (String.eqb (Error e') lockFileExists)).
           ++ eexists. unfold events. simpl. reflexivity.
           ++ destruct (after_exists h s key lockFile start put.2)
                as [[[| err] w'] t'].
              ** destruct (run h (Lock_loop rounds s key lockFile start) w')
                   as [[r w''] t''].
                 eexists. unfold events. simpl. reflexivity.
              ** eexists. unfold events. simpl. reflexivity.
        -- eexists. unfold events. simpl. reflexivity.
    + intros ->.
      destruct put.1 as [e' |].
      * destruct (negb (String.eqb (Error e') lockFileExists)).
        -- eexists. unfold events. simpl. reflexivity.
        -- destruct (after_exists h s key lockFile start put.2)
             as [[[| err] w'] t'].
           ++ destruct (run h (Lock_loop rounds s key lockFile start) w')
                as [[r w''] t''].
              eexists. unfold events. simpl. reflexivity.
           ++ eexists. unfold events. simpl. reflexivity.
      * eexists. unfold events. simpl. reflexivity.
    + intros -> ->. reflexivity.
Qed.

(** A marker written three hours ago, behind an object at the path
    [Exists] asks for that another client removes once the marker is gone:
    the marker is deleted, the creation is retried at once and succeeds. *)
Lemma stale_marker_deleted_then_retried_witness :
  result (run reclaimed
              (Lock_loop 2 example_store "example.com"
                         "certmagic/locks/example.com.lock"
                         (clock empty_bucket))
              (marked_bucket (clock empty_bucket - 3 * time.Hour)%Z))
  = Some None
  /\ events (run reclaimed
                 (Lock_loop 2 example_store "example.com"
                            "certmagic/locks/example.com.lock"
                            (clock empty_bucket))
                 (marked_bucket (clock empty_bucket - 3 * time.Hour)%Z))
     = [EvGetObject
          {| get_Bucket := "bucket";
             get_Key := "certmagic/certmagic/locks/example.com.lock" |}
          (inl (output_of {| obj_Body := "shadow";
                             obj_Modified := clock empty_bucket |}));
        EvGetObject
          {| get_Bucket := "bucket";
             get_Key := "certmagic/locks/example.com.lock" |}
          (inl (output_of
                  {| obj_Body := "lock";
                     obj_Modified := (clock empty_bucket - 3 * time.Hour)%Z |}));
        EvNow (clock empty_bucket);
        EvLogPrintf (stale_msg example_store "example.com"
                               "certmagic/locks/example.com.lock");
        EvDeleteObject
          {| del_Bucket := "bucket";
             del_Key := "certmagic/locks/example.com.lock" |} None;
        EvGetObject
          {| get_Bucket := "bucket";
             get_Key := "certmagic/certmagic/locks/example.com.lock" |}
          (inr noSuchKey);
        EvPutObject
          {| put_Bucket := "bucket";
             put_Key := "certmagic/locks/example.com.lock";
             put_Body := "lock" |} None].
Proof.
  destruct (stale_marker_deleted_then_retried
              Bucket reclaimed example_store "example.com"
              "certmagic/locks/example.com.lock" (clock empty_bucket)
              (marked_bucket (clock empty_bucket - 3 * time.Hour)%Z)
              (marked_bucket (clock empty_bucket - 3 * time.Hour)%Z)
              (errorString lockFileExists)
              [EvGetObject
                 {| get_Bucket := "bucket";
                    get_Key := "certmagic/certmagic/locks/example.com.lock" |}
                 (inl (output_of {| obj_Body := "shadow";
                                    obj_Modified := clock empty_bucket |}))]
              (output_of
                 {| obj_Body := "lock";
                    obj_Modified := (clock empty_bucket - 3 * time.Hour)%Z |}))
    as (w2 & w3 & now & Hnow & Hlog & _ & _ & Hloop).
  - vm_compute. reflexivity.
  - reflexivity.
  - vm_compute. reflexivity.
  - vm_compute. reflexivity.
  - destruct (Hloop 0%nat) as (_ & _ & _ & Hfinal).
    injection Hnow as <- <-. subst w3.
    rewrite Hfinal.
    + split; [reflexivity | vm_compute; reflexivity].
    + vm_compute. reflexivity.
    + vm_compute. reflexivity.
Defined.

(** On the reference backend, as long as no object sits at the doubly
    prefixed path, [Lock] takes the lock in its first round whether or not
    the marker is already there, and [Exists] does not see the marker. *)
Lemma Lock_never_sees_marker (Safe : string -> string) (s : S3Store)
      (ctx : Context) (key : string) (w : Bucket) :
  Filename s (lockFileName Safe s key) <> lockFileName Safe s key ->
  objects w !! Filename s (lockFileName Safe s key) = None ->
  result (run s3 (Lock Safe 1 s ctx key) w) = Some None
  /\ is_Some (objects (final (run s3 (Lock Safe 1 s ctx key) w))
                !! lockFileName Safe s key)
  /\ result (run s3 (Exists s (lockFileName Safe s key))
                 (final (run s3 (Lock Safe 1 s ctx key) w))) = false.
Proof.
  intros Hne Hnone.
  assert (HLock :
            run s3 (Lock Safe 1 s ctx key) w
            = (Some None,
               set_objects
                 (<[lockFileName Safe s key :=
                      {| obj_Body := "lock";
                         obj_Modified :=
                           clock (tick (latency w) (tick (latency w) w)) |}]>
                    (objects w))
                 (tick (latency w) (tick (latency w) w)),
               [EvNow (clock w);
                EvGetObject {| get_Bucket := bucket s;
                               get_Key := Filename s (lockFileName Safe s key) |}
                            (inr noSuchKey);
                EvPutObject {| put_Bucket := bucket s;
                               put_Key := lockFileName Safe s key;
                               put_Body := "lock" |} None])).
  { unfold Lock. rewrite run_bind, run_perform.
    rewrite run_Lock_loop_S, run_Lock_round, run_createLockFile. simpl.
    rewrite Hnone. reflexivity. }
  rewrite HLock. split; [reflexivity |]. split.
  - unfold final. simpl. rewrite lookup_insert_eq. eexists. reflexivity.
  - rewrite run_Exists. unfold result, final. simpl.
    rewrite lookup_insert_ne by (intros E; apply Hne; symmetry; exact E).
    rewrite Hnone. reflexivity.
Qed.

(** C3 (the code departs from it).  [createLockFile] writes the marker at
    the lock file's path, but [Exists] resolves that path once more
    through [Filename] and asks for another object.  So on a bucket that
    was empty, after [Lock] has returned nil the marker is stored and
    [Exists] of the marker's path is false; a second [Lock] of the same
    key succeeds at once; and where an object sits at the doubly prefixed
    path, [Exists] is still true after [Unlock]. *)
Theorem Lock_marker_not_seen_by_Exists :
  lockFileName plain_Safe example_store "example.com"
  = "certmagic/locks/example.com.lock"
  /\ Filename example_store (lockFileName plain_Safe example_store "example.com")
     = "certmagic/certmagic/locks/example.com.lock"
  /\ result (run s3 (l <- Lock plain_Safe 1 example_store background
                               "example.com" ;;
                     x <- Exists example_store
                                 (lockFileName plain_Safe example_store
                                               "example.com") ;;
                     Ret (l, x))
                 empty_bucket)
     = (Some None, false)
  /\ objects (final (run s3 (Lock plain_Safe 1 example_store background
                                  "example.com") empty_bucket))
       !! "certmagic/locks/example.com.lock"
     = Some {| obj_Body := "lock"; obj_Modified := clock empty_bucket |}
  /\ result (run s3 (Lock plain_Safe 1 example_store background "example.com" ;;;
                     Lock plain_Safe 1 example_store background "example.com")
                 empty_bucket)
     = Some None
  /\ result (run s3 (Unlock plain_Safe example_store "example.com" ;;;
                     Exists example_store
                            (lockFileName plain_Safe example_store
                                          "example.com"))
                 (marked_bucket (clock empty_bucket)))
     = true.
Proof. repeat split; vm_compute; reflexivity. Qed.

(** ** Rounds that never reach the deadlock guard *)

Section Skips.

Context {W : Type} (h : backend W).
Variables (s : S3Store) (key lockFile : string).

Lemma after_exists_skips (start : Time) (w1 : W) :
  absent_or_stale h s lockFile w1 ->
  after_exists h s key lockFile start w1
  = (Continue, (skip_outcome h s key lockFile w1).1, (skip_outcome h s key lockFile w1).2).
Proof.
  unfold absent_or_stale, after_exists, skip_outcome. simpl.
  destruct (h _ (get_at s lockFile) w1) as [[out | err] w2]; simpl.
  - intros Hstale. apply Z.ltb_lt in Hstale. rewrite Hstale. reflexivity.
  - intros ->. reflexivity.
Qed.

Lemma skip_outcome_events (w1 : W) :
  forallb (fun ev => negb (is_sleep ev)) (skip_outcome h s key lockFile w1).2 = true
  /\ (length (filter (fun ev => is_now ev = true) (skip_outcome h s key lockFile w1).2) <= 1)%nat.
Proof.
  unfold skip_outcome. simpl.
  destruct (h _ (get_at s lockFile) w1) as [[out | err] w2]; simpl;
    split; (reflexivity || lia).
Qed.

Lemma round_skips (start : Time) (w : W) :
  skips h s lockFile w ->
  exists (w' : W) (t : list event),
    (forall start' : Time,
        run h (Lock_round s key lockFile start') w = (Continue, w', t))
    /\ forallb (fun ev => negb (is_sleep ev)) t = true
    /\ (length (filter (fun ev => is_now ev = true) t) <= 1)%nat.
Proof.
  intros (e & w1 & t1 & Hcreate & Hmsg & Hskip).
  exists (skip_outcome h s key lockFile w1).1, (t1 ++ (skip_outcome h s key lockFile w1).2)%list.
  split; [| split].
  - intros start'.
    rewrite run_Lock_round, Hcreate, Hmsg, String.eqb_refl. simpl.
    rewrite (after_exists_skips start' w1 Hskip). reflexivity.
  - pose proof (createLockFile_events h s lockFile w) as Hev.
    rewrite Hcreate in Hev. unfold events in Hev. simpl in Hev.
    rewrite forallb_app. apply andb_true_iff. split.
    + apply forallb_forall. intros ev Hin.
      rewrite forallb_forall in Hev. specialize (Hev ev Hin).
      rewrite !andb_true_iff in Hev. tauto.
    + apply skip_outcome_events.
  - pose proof (createLockFile_events h s lockFile w) as Hev.
    rewrite Hcreate in Hev. unfold events in Hev. simpl in Hev.
    rewrite filter_app, length_app.
    assert (Hnone : filter (fun ev => is_now ev = true) t1 = []).
    { clear -Hev. induction t1 as [| ev t IH]; [reflexivity |].
      simpl in Hev. rewrite !andb_true_iff in Hev.
      destruct Hev as [[[_ Hn] _] Hrest].
      rewrite filter_cons, decide_False.
      - apply IH, Hrest.
      - destruct (is_now ev); [discriminate | congruence]. }
    rewrite Hnone. simpl. apply skip_outcome_events.
Qed.

(** A round whose outcome depends on [start] has found a fresh marker. *)
Lemma round_depends_on_start (start start' : Time) (w : W) :
  run h (Lock_round s key lockFile start) w
  <> run h (Lock_round s key lockFile start') w ->
  found_fresh h s lockFile w.
Proof.
  rewrite !run_Lock_round.
  destruct (run h (createLockFile s lockFile) w) as [[[e |] w1] t1] eqn:Ec;
    [| intros H; contradiction H; reflexivity].
  destruct (negb (String.eqb (Error e) lockFileExists)) eqn:Emsg;
    [intros H; contradiction H; reflexivity |].
  apply negb_false_iff, String.eqb_eq in Emsg.
  unfold after_exists.
  destruct (h _ (get_at s lockFile) w1) as [[out | err] w2] eqn:Eg; simpl;
    [| intros H; contradiction H; reflexivity].
  destruct (staleLockDuration <? (h _ Now w2).1 - LastModified out)%Z
    eqn:Estale; [intros H; contradiction H; reflexivity |].
  intros _. exists e, w1, t1, out.
  split; [exact Ec |]. split; [exact Emsg |].
  rewrite Eg. simpl. split; [reflexivity |].
  apply Z.ltb_ge. exact Estale.
Qed.

End Skips.

(** C9.  The elapsed time since [start] is looked at only in a round where
    [Stat] finds a fresh marker: a round whose outcome depends on [start]
    is such a round.  A round in which [Stat] observes no marker, or a
    stale one, goes on to the next round whatever [start] is, without
    sleeping and with at most the one clock reading of the staleness
    test.  Hence, when every round of an acquisition is of that kind
    ([I] holds of the states the rounds begin in), [Lock] has not
    returned after any number of rounds, however much time has passed. *)
Theorem guard_skipped_when_absent_or_stale
        (W : Type) (h : backend W) (Safe : string -> string) (s : S3Store)
        (key : string) :
  (forall (w : W) (start start' : Time),
      run h (Lock_round s key (lockFileName Safe s key) start) w
      <> run h (Lock_round s key (lockFileName Safe s key) start') w ->
      found_fresh h s (lockFileName Safe s key) w)
  /\ (forall w : W,
         skips h s (lockFileName Safe s key) w ->
         exists (w' : W) (t : list event),
           (forall start : Time,
               run h (Lock_round s key (lockFileName Safe s key) start) w
               = (Continue, w', t))
           /\ forallb (fun ev => negb (is_sleep ev)) t = true
           /\ (length (filter (fun ev => is_now ev = true) t) <= 1)%nat)
  /\ forall I : W -> Prop,
      (forall w : W,
          I w ->
          skips h s (lockFileName Safe s key) w
          /\ I (final (run h (Lock_round s key (lockFileName Safe s key) 0%Z)
                            w))) ->
      forall w0 : W,
        I (h _ Now w0).2 ->
        forall (rounds : nat) (ctx : Context),
          result (run h (Lock Safe rounds s ctx key) w0) = None.
Proof.
  split; [| split].
  - intros w start start'. apply round_depends_on_start.
  - intros w Hw. apply (round_skips h s key _ 0%Z w), Hw.
  - intros I Hinv w0 Hw0 rounds ctx. unfold Lock. rewrite run_bind, run_perform.
    generalize dependent (h _ Now w0).2. generalize (h _ Now w0).1.
    intros start w Hw. simpl.
    enough (G : result (run h (Lock_loop rounds s key (lockFileName Safe s key)
                                         start) w) = None).
    { destruct (run h (Lock_loop rounds s key _ start) w) as [[r w'] t].
      exact G. }
    revert w Hw. induction rounds as [| rounds IH]; intros w Hw.
    + reflexivity.
    + destruct (Hinv w Hw) as [Hskip Hnext].
      destruct (round_skips h s key _ 0%Z w Hskip) as (w' & t & Hround & _).
      rewrite run_Lock_loop_S, Hround.
      rewrite Hround in Hnext. specialize (IH w' Hnext).
      destruct (run h (Lock_loop rounds s key _ start) w') as [[r w2] t2].
      exact IH.
Qed.

(** On the reference backend: while an object sits at the path [Exists]
    resolves the lock file to and there is no marker, every round skips
    the guard. *)
Lemma s3_shadowed_skips (s : S3Store) (key lockFile : string) (w : Bucket) :
  is_Some (objects w !! Filename s lockFile) ->
  objects w !! lockFile = None ->
  skips s3 s lockFile w
  /\ is_Some (objects (final (run s3 (Lock_round s key lockFile 0%Z) w))
                !! Filename s lockFile)
  /\ objects (final (run s3 (Lock_round s key lockFile 0%Z) w)) !! lockFile
     = None.
Proof.
  intros [o Ho] Habsent.
  assert (Hskip : skips s3 s lockFile w).
  { exists (errorString lockFileExists), (tick (latency w) w),
      [EvGetObject {| get_Bucket := bucket s;
                      get_Key := Filename s lockFile |} (inl (output_of o))].
    split; [| split].
    - rewrite run_createLockFile. simpl. rewrite Ho. reflexivity.
    - reflexivity.
    - unfold absent_or_stale. simpl. rewrite Habsent. reflexivity. }
  split; [exact Hskip |].
  destruct Hskip as (e & w1 & t1 & Hcreate & Hmsg & Hskip).
  rewrite run_Lock_round, Hcreate, Hmsg, String.eqb_refl. simpl.
  rewrite (after_exists_skips s3 s key lockFile 0%Z w1 Hskip).
  unfold final. simpl.
  rewrite run_createLockFile in Hcreate. simpl in Hcreate.
  rewrite Ho in Hcreate. simpl in Hcreate. injection Hcreate as _ <- _.
  unfold skip_outcome. simpl. rewrite Habsent. simpl.
  split; [exists o; exact Ho | exact Habsent].
Qed.

(** After five rounds, ten hours into the acquisition, [Lock] is still
    looping. *)
Lemma guard_skipped_when_absent_or_stale_witness :
  result (run s3 (Lock plain_Safe 5 example_store cancelled "example.com")
              shadowed_bucket) = None.
Proof.
  apply (proj2 (proj2 (guard_skipped_when_absent_or_stale
                         Bucket s3 plain_Safe example_store "example.com"))
           (fun w =>
              is_Some (objects w
                         !! Filename example_store
                              (lockFileName plain_Safe example_store
                                            "example.com"))
              /\ objects w !! lockFileName plain_Safe example_store
                                           "example.com" = None)).
  - intros w [Hshadow Habsent].
    destruct (s3_shadowed_skips example_store "example.com" _ w
                                Hshadow Habsent) as (H1 & H2 & H3).
    split; [exact H1 | split; [exact H2 | exact H3]].
  - split; [exists {| obj_Body := "shadow";
                      obj_Modified := clock empty_bucket |} |];
      vm_compute; reflexivity.
Defined.

Example Lock_shadowed_elapsed :
  (clock (final (run s3 (Lock plain_Safe 5 example_store cancelled
                              "example.com") shadowed_bucket))
   - clock shadowed_bucket = 10 * time.Hour)%Z.
Proof. vm_compute. reflexivity. Qed.

(** ** A marker that is kept fresh *)

Section Held.

Context {W : Type} (h : backend W).
Variables (s : S3Store) (key lockFile : string).

Variables (I : W -> Prop) (clk : W -> Time).
Hypothesis Hkept : kept_fresh h s lockFile I clk.

(** One round from a state of [I]: it trips the guard, or it sleeps the
    poll interval and the clock has moved on by as much. *)
Lemma round_kept_fresh (start : Time) (w : W) :
  I w ->
  (exists (d : Duration) (w' : W) (t : list event),
      run h (Lock_round s key lockFile start) w
      = (Return (Some (errorString (deadlock_msg key d))), w', t)
      /\ (staleLockDuration * 2 < d)%Z)
  \/ (exists (w' : W) (t : list event),
         run h (Lock_round s key lockFile start) w = (Continue, w', t)
         /\ I w'
         /\ (clk w + fileLockPollInterval <= clk w')%Z
         /\ (clk w - start <= staleLockDuration * 2)%Z).
Proof.
  intros Hw.
  destruct (kf_create h s lockFile I clk Hkept w Hw) as (e & w1 & t1 & Hc & Hmsg & Hw1 & Hle1).
  destruct (kf_stat h s lockFile I clk Hkept w1 Hw1) as (out & Hget & Hw2 & Hle2 & Hfresh).
  set (w2 := (h _ (get_at s lockFile) w1).2) in *.
  destruct (kf_now h s lockFile I clk Hkept w2 Hw2) as (Hn1 & Hw3 & Hle3).
  set (w3 := (h _ Now w2).2) in *.
  destruct (kf_now h s lockFile I clk Hkept w3 Hw3) as (Hn2 & Hw4 & Hle4).
  set (w4 := (h _ Now w3).2) in *.
  destruct (kf_now h s lockFile I clk Hkept w4 Hw4) as (Hn3 & Hw5 & Hle5).
  destruct (kf_sleep h s lockFile I clk Hkept w4 fileLockPollInterval Hw4) as (Hw6 & Hle6).
  rewrite run_Lock_round, Hc, Hmsg, String.eqb_refl. simpl.
  unfold after_exists. rewrite Hget. simpl. fold w2. rewrite Hn1.
  assert (Hns : (staleLockDuration <? clk w2 - LastModified out)%Z = false)
    by (apply Z.ltb_ge; exact Hfresh).
  rewrite Hns. fold w3. rewrite Hn2.
  destruct (staleLockDuration * 2 <? clk w3 - start)%Z eqn:Eguard.
  - left. apply Z.ltb_lt in Eguard. fold w4. rewrite Hn3.
    eexists _, _, _. split; [reflexivity |].
    apply Z.ltb_lt. rewrite (Sub_exceeds _ _ _ stale2_in_range).
    apply Z.ltb_lt. lia.
  - right. apply Z.ltb_ge in Eguard. fold w4.
    eexists _, _. split; [reflexivity |].
    split; [exact Hw6 |]. split; lia.
Qed.

Lemma poll_interval_pos : (0 < fileLockPollInterval)%Z.
Proof. reflexivity. Qed.

(** The loop ends with the deadlock error once the clock has passed
    [start] by more than twice the stale duration. *)
Lemma Lock_loop_kept_fresh (start : Time) (n : nat) :
  forall w : W,
    I w ->
    (Z.to_nat (start + staleLockDuration * 2 + 1 - clk w) <= n)%nat ->
    exists (rounds : nat) (d : Duration),
      result (run h (Lock_loop rounds s key lockFile start) w)
      = Some (Some (errorString (deadlock_msg key d)))
      /\ (staleLockDuration * 2 < d)%Z.
Proof.
  pose proof poll_interval_pos as Hpos.
  induction n as [| n IH]; intros w Hw Hn;
    destruct (round_kept_fresh start w Hw)
      as [(d & w' & t & Hround & Hd) | (w' & t & Hround & Hw' & Hclk & Hin)].
  - exists 1%nat, d. rewrite run_Lock_loop_S, Hround. split; [reflexivity | exact Hd].
  - exfalso. lia.
  - exists 1%nat, d. rewrite run_Lock_loop_S, Hround. split; [reflexivity | exact Hd].
  - destruct (IH w' Hw') as (rounds & d & Hres & Hd); [lia |].
    exists (S rounds), d. rewrite run_Lock_loop_S, Hround.
    destruct (run h (Lock_loop rounds s key lockFile start) w') as [[r w2] t2].
    split; [exact Hres | exact Hd].
Qed.

End Held.

Lemma Lock_more {W : Type} (h : backend W) (Safe : string -> string)
      (s : S3Store) (ctx : Context) (key : string) (rounds extra : nat)
      (w : W) (err : option error) :
  result (run h (Lock Safe rounds s ctx key) w) = Some err ->
  result (run h (Lock Safe (rounds + extra) s ctx key) w) = Some err.
Proof.
  unfold Lock. rewrite !run_bind, run_perform. simpl.
  intros Hr.
  rewrite (Lock_loop_more h s key _ _ rounds extra _ err).
  - exact Hr.
  - destruct (run h (Lock_loop rounds s key _ _) _) as [[r w2] t2]. exact Hr.
Qed.

(** X18.  Where every attempt to create the lock file is told that it
    exists and every [Stat] finds a marker that is not stale, on a clock
    that does not run backwards and moves on while the loop sleeps: a
    round returns the deadlock error, made of a third clock reading, when
    its second clock reading lies more than twice [staleLockDuration]
    after the start, and sleeps a second and goes on when it does not;
    and [Lock] returns after finitely many rounds, the deadlock error
    with more than twice [staleLockDuration] and nothing else. *)
Theorem deadlock_guard_trips_past_twice_stale
        (W : Type) (h : backend W) (Safe : string -> string) (s : S3Store)
        (key : string) (I : W -> Prop) (clk : W -> Time) (ctx : Context)
        (w0 : W) :
  kept_fresh h s (lockFileName Safe s key) I clk ->
  I w0 ->
  (forall (start : Time) (w : W),
      I w ->
      let lockFile := lockFileName Safe s key in
      let c := run h (createLockFile s lockFile) w in
      let g := h _ (get_at s lockFile) (final c) in
      let n1 := h _ Now g.2 in
      let n2 := h _ Now n1.2 in
      let n3 := h _ Now n2.2 in
      let seen :=
        (events c ++ [EvGetObject {| get_Bucket := bucket s;
                                     get_Key := lockFile |} g.1;
                      EvNow n1.1; EvNow n2.1])%list in
      ((staleLockDuration * 2 < n2.1 - start)%Z ->
       run h (Lock_round s key lockFile start) w
       = (Return (Some (errorString
                          ("possible deadlock: "
                           ++ time.String_ (time.Sub n3.1 start)
                           ++ " passed trying to obtain lock for " ++ key))),
          n3.2, (seen ++ [EvNow n3.1])%list))
      /\ ((n2.1 - start <= staleLockDuration * 2)%Z ->
          run h (Lock_round s key lockFile start) w
          = (Continue, (h _ (Sleep 1000000000%Z) n2.2).2,
             (seen ++ [EvSleep 1000000000%Z])%list)))
  /\ exists (rounds : nat) (d : Duration),
      result (run h (Lock Safe rounds s ctx key) w0)
      = Some (Some (errorString (deadlock_msg key d)))
      /\ (staleLockDuration * 2 < d)%Z
      /\ forall rounds' : nat,
          result (run h (Lock Safe rounds' s ctx key) w0) = None
          \/ result (run h (Lock Safe rounds' s ctx key) w0)
             = Some (Some (errorString (deadlock_msg key d))).
Proof.
  intros Hkept Hw0. split.
  - intros start w Hw lockFile c g n1 n2 n3 seen.
    destruct (kf_create h s lockFile I clk Hkept w Hw)
      as (e & w1 & t1 & Hc & Hmsg & Hw1 & _).
    assert (Ec : c = (Some e, w1, t1)) by exact Hc.
    destruct (kf_stat h s lockFile I clk Hkept w1 Hw1)
      as (out & Hget & Hw2 & _ & Hfresh).
    destruct (kf_now h s lockFile I clk Hkept _ Hw2) as (Hn1 & _ & _).
    assert (Hround :
              run h (Lock_round s key lockFile start) w
              = (if (staleLockDuration * 2 <? n2.1 - start)%Z
                 then (Return (Some (errorString
                                       (deadlock_msg key
                                          (time.Sub n3.1 start)))),
                       n3.2, (seen ++ [EvNow n3.1])%list)
                 else (Continue, (h _ (Sleep fileLockPollInterval) n2.2).2,
                       (seen ++ [EvSleep fileLockPollInterval])%list))).
    { rewrite run_Lock_round. fold c. subst seen n3 n2 n1 g.
      rewrite Ec, Hmsg, String.eqb_refl. unfold final. cbn [fst snd negb].
      unfold after_exists. cbn zeta. rewrite Hget.
      assert (Hns : (staleLockDuration
                     <? (h _ Now (h _ (get_at s lockFile) w1).2).1
                        - LastModified out)%Z = false).
      { apply Z.ltb_ge. rewrite Hn1. exact Hfresh. }
      rewrite Hns.
      destruct (staleLockDuration * 2 <? _)%Z;
        rewrite <- app_assoc; reflexivity. }
    split; intros Hguard; rewrite Hround.
    + apply Z.ltb_lt in Hguard. rewrite Hguard. reflexivity.
    + apply Z.ltb_ge in Hguard. rewrite Hguard. reflexivity.
  - destruct (kf_now h s _ I clk Hkept w0 Hw0) as (Hstart & Hw1 & _).
    destruct (Lock_loop_kept_fresh h s key _ I clk Hkept (clk w0) _
                                   (h _ Now w0).2 Hw1 (le_n _))
      as (rounds & d & Hres & Hd).
    assert (HLock : result (run h (Lock Safe rounds s ctx key) w0)
                    = Some (Some (errorString (deadlock_msg key d)))).
    { unfold Lock. rewrite run_bind, run_perform. simpl. rewrite Hstart.
      destruct (run h (Lock_loop rounds s key _ (clk w0)) _) as [[r w2] t2].
      exact Hres. }
    exists rounds, d. split; [exact HLock |]. split; [exact Hd |].
    intros rounds'.
    destruct (result (run h (Lock Safe rounds' s ctx key) w0))
      as [err |] eqn:Hr'; [right | left; reflexivity].
    destruct (Nat.le_ge_cases rounds rounds') as [Hle | Hle].
    + replace rounds' with (rounds + (rounds' - rounds))%nat in Hr' by lia.
      rewrite (Lock_more h Safe s ctx key rounds _ w0 _ HLock) in Hr'.
      symmetry. exact Hr'.
    + pose proof (Lock_more h Safe s ctx key rounds' (rounds - rounds') w0 _
                            Hr') as Hm.
      replace (rounds' + (rounds - rounds'))%nat with rounds in Hm by lia.
      rewrite HLock in Hm. symmetry. exact Hm.
Qed.

(** The reference backend with a client that rewrites the marker before
    every request keeps it fresh, as long as a request takes no more than
    the stale duration and an object sits at the path [Exists] asks for. *)
Lemma s3_kept_fresh (s : S3Store) (lockFile : string) :
  kept_fresh (interleave (keep_fresh lockFile) s3) s lockFile
             (fun w => is_Some (objects w !! Filename s lockFile)
                       /\ (0 <= latency w <= staleLockDuration)%Z)
             clock.
Proof.
  assert (Hkeep : forall w,
             is_Some (objects w !! Filename s lockFile) ->
             is_Some (<[lockFile := {| obj_Body := "lock";
                                       obj_Modified := clock w |}]>
                        (objects w) !! Filename s lockFile)).
  { intros w Hs. rewrite lookup_insert. case_decide; [eexists; reflexivity | exact Hs]. }
  split.
  - intros w [Hs Hl]. unfold interleave. simpl.
    split; [reflexivity |]. split; [| lia]. split; [apply Hkeep, Hs | exact Hl].
  - intros w d [Hs Hl]. unfold interleave. simpl.
    split; [| lia]. split; [apply Hkeep, Hs | exact Hl].
  - intros w [Hs Hl]. rewrite run_createLockFile. unfold interleave. simpl.
    destruct (Hkeep w Hs) as [o Ho]. rewrite Ho. simpl.
    eexists _, _, _. split; [reflexivity |]. split; [reflexivity |].
    simpl. split; [| lia]. split; [exists o; exact Ho | exact Hl].
  - intros w [Hs Hl]. unfold interleave. simpl.
    rewrite lookup_insert_eq. eexists. split; [reflexivity |]. simpl.
    split; [| split; lia]. split; [apply Hkeep, Hs | exact Hl].
Qed.

(** A marker that a third party keeps rewriting: five hours after the
    start the round returns the deadlock error, four hours after it the
    round sleeps and goes on. *)
Lemma deadlock_guard_trips_past_twice_stale_witness :
  result (run kept
              (Lock_round example_store "example.com"
                          "certmagic/locks/example.com.lock"
                          (clock empty_bucket - 5 * time.Hour)%Z)
              (marked_bucket (clock empty_bucket)))
  = Return (Some (errorString
                    "possible deadlock: 5h0m0s passed trying to obtain lock for example.com"))
  /\ result (run kept
                 (Lock_round example_store "example.com"
                             "certmagic/locks/example.com.lock"
                             (clock empty_bucket - 4 * time.Hour)%Z)
                 (marked_bucket (clock empty_bucket)))
     = Continue.
Proof.
  destruct (deadlock_guard_trips_past_twice_stale
              Bucket kept plain_Safe example_store "example.com"
              (fun w =>
                 is_Some (objects w
                            !! Filename example_store
                                 (lockFileName plain_Safe example_store
                                               "example.com"))
                 /\ (0 <= latency w <= staleLockDuration)%Z)
              clock background (marked_bucket (clock empty_bucket)))
    as [Hround _].
  - exact (s3_kept_fresh example_store
                         (lockFileName plain_Safe example_store "example.com")).
  - split; [vm_compute; eexists; reflexivity | vm_compute; split; discriminate].
  - split.
    + destruct (Hround (clock empty_bucket - 5 * time.Hour)%Z
                       (marked_bucket (clock empty_bucket))) as [Htrip _].
      * split; [vm_compute; eexists; reflexivity
               | vm_compute; split; discriminate].
      * change (lockFileName plain_Safe example_store "example.com")
          with "certmagic/locks/example.com.lock" in Htrip.
        rewrite Htrip; [vm_compute; reflexivity | vm_compute; reflexivity].
    + destruct (Hround (clock empty_bucket - 4 * time.Hour)%Z
                       (marked_bucket (clock empty_bucket))) as [_ Hpoll].
      * split; [vm_compute; eexists; reflexivity
               | vm_compute; split; discriminate].
      * change (lockFileName plain_Safe example_store "example.com")
          with "certmagic/locks/example.com.lock" in Hpoll.
        rewrite Hpoll; [reflexivity | vm_compute; discriminate].
Defined.

(** ** The context *)

Section Context_.

Context {W : Type} (h : backend W).
Variables (s : S3Store) (key lockFile : string).

Lemma createLockFile_no_delete (w : W) :
  forallb (fun ev => negb (is_delete ev))
          (events (run h (createLockFile s lockFile) w)) = true.
Proof.
  pose proof (createLockFile_events h s lockFile w) as Hev.
  apply forallb_forall. intros ev Hin.
  rewrite forallb_forall in Hev. specialize (Hev ev Hin).
  rewrite !andb_true_iff in Hev. tauto.
Qed.

Lemma Lock_round_shape (start : Time) (w : W) :
  round_shape s key lockFile
              (events (run h (Lock_round s key lockFile start) w)).
Proof.
  rewrite run_Lock_round.
  pose proof (createLockFile_no_delete w) as Hc.
  destruct (run h (createLockFile s lockFile) w) as [[[e |] w1] t1];
    unfold events in *; simpl in Hc |- *.
  2: { left. exact Hc. }
  destruct (negb (String.eqb (Error e) lockFileExists)); simpl.
  { left. rewrite forallb_app, Hc. reflexivity. }
  unfold after_exists.
  destruct (h _ (get_at s lockFile) w1) as [[out | err] w2]; simpl.
  2: { left. rewrite forallb_app, Hc. reflexivity. }
  destruct (h _ Now w2) as [now w3]; simpl.
  destruct (staleLockDuration <? now - LastModified out)%Z eqn:Estale; simpl.
  - right. exists t1, out, now. eexists. split; [reflexivity |].
    split; [exact Hc | apply Z.ltb_lt, Estale].
  - destruct (h _ Now w3) as [now2 w4]; simpl.
    destruct (staleLockDuration * 2 <? now2 - start)%Z; simpl;
      left; rewrite forallb_app, Hc; reflexivity.
Qed.

Lemma Lock_loop_shape (start : Time) (rounds : nat) (w : W) :
  exists ts : list (list event),
    events (run h (Lock_loop rounds s key lockFile start) w) = concat ts
    /\ Forall (round_shape s key lockFile) ts.
Proof.
  revert w. induction rounds as [| rounds IH]; intros w.
  - exists []. split; [reflexivity | constructor].
  - rewrite run_Lock_loop_S.
    pose proof (Lock_round_shape start w) as Hshape.
    destruct (run h (Lock_round s key lockFile start) w) as [[[| err] w1] t1].
    + destruct (IH w1) as (ts & Hts & Hall).
      destruct (run h (Lock_loop rounds s key lockFile start) w1)
        as [[r w2] t2].
      exists (t1 :: ts). unfold events in *. simpl in *. rewrite Hts.
      split; [reflexivity | constructor; assumption].
    + exists [t1]. unfold events in *. simpl in *. rewrite app_nil_r.
      split; [reflexivity | constructor; [assumption | constructor]].
Qed.

Lemma Lock_round_errors (start : Time) (w : W) :
  match result (run h (Lock_round s key lockFile start) w) with
  | Return err => made_by_Errorf key (Some err)
  | Continue => True
  end.
Proof.
  rewrite run_Lock_round.
  destruct (run h (createLockFile s lockFile) w) as [[[e |] w1] t1];
    unfold result; simpl; [| exact Logic.I].
  destruct (negb (String.eqb (Error e) lockFileExists)); simpl.
  { left. exists e. reflexivity. }
  unfold after_exists.
  destruct (h _ (get_at s lockFile) w1) as [[out | err] w2]; simpl.
  2: { destruct (As_NoSuchKey err); simpl;
       [exact Logic.I | right; left; exists err; reflexivity]. }
  destruct (h _ Now w2) as [now w3]; simpl.
  destruct (staleLockDuration <? now - LastModified out)%Z; simpl;
    [exact Logic.I |].
  destruct (h _ Now w3) as [now2 w4]; simpl.
  destruct (staleLockDuration * 2 <? now2 - start)%Z; simpl;
    [right; right; eexists; reflexivity | exact Logic.I].
Qed.

Lemma Lock_loop_errors (start : Time) (rounds : nat) (w : W) :
  made_by_Errorf key
                 (result (run h (Lock_loop rounds s key lockFile start) w)).
Proof.
  revert w. induction rounds as [| rounds IH]; intros w.
  - exact Logic.I.
  - rewrite run_Lock_loop_S.
    pose proof (Lock_round_errors start w) as Hround.
    destruct (run h (Lock_round s key lockFile start) w) as [[[| err] w1] t1].
    + specialize (IH w1).
      destruct (run h (Lock_loop rounds s key lockFile start) w1)
        as [[r w2] t2].
      exact IH.
    + exact Hround.
Qed.

End Context_.

(** C2 (as amended).  [Lock] never consults its context: it is the same
    program for every context, cancelled or not, so cancelling changes
    neither what it returns nor what it asks of the backend.  It never
    returns the context's error: what it returns is nil, or the error
    it made because the creation failed, because [Stat] failed, or
    because the deadlock guard tripped.  The delete requests it sends
    are those of the staleness path: each is for the lock file and comes
    right after a [Stat] that found the marker stale. *)
Theorem Lock_ignores_context
        (W : Type) (h : backend W) (Safe : string -> string) (s : S3Store)
        (key : string) (rounds : nat) (ctx ctx' : Context) (w : W) :
  Lock Safe rounds s ctx key = Lock Safe rounds s ctx' key
  /\ made_by_Errorf key (result (run h (Lock Safe rounds s ctx key) w))
  /\ result (run h (Lock Safe rounds s ctx key) w) <> Some (Some Canceled)
  /\ result (run h (Lock Safe rounds s ctx key) w)
     <> Some (Some DeadlineExceeded)
  /\ exists ts : list (list event),
      events (run h (Lock Safe rounds s ctx key) w)
      = EvNow (h _ Now w).1 :: concat ts
      /\ Forall (round_shape s key (lockFileName Safe s key)) ts.
Proof.
  split; [reflexivity |].
  assert (Herr : made_by_Errorf key
                                (result (run h (Lock Safe rounds s ctx key) w))).
  { unfold Lock. rewrite run_bind, run_perform. simpl.
    pose proof (Lock_loop_errors h s key (lockFileName Safe s key)
                                 (h _ Now w).1 rounds (h _ Now w).2) as H.
    destruct (run h (Lock_loop rounds s key _ _) _) as [[r w2] t2]. exact H. }
  split; [exact Herr |].
  split; [| split].
  - intros E. rewrite E in Herr.
    destruct Herr as [[e He] | [[e He] | [d He]]]; discriminate.
  - intros E. rewrite E in Herr.
    destruct Herr as [[e He] | [[e He] | [d He]]]; discriminate.
  - unfold Lock. rewrite run_bind, run_perform. simpl.
    destruct (Lock_loop_shape h s key (lockFileName Safe s key)
                              (h _ Now w).1 rounds (h _ Now w).2)
      as (ts & Hts & Hall).
    destruct (run h (Lock_loop rounds s key _ _) _) as [[r w2] t2].
    exists ts. unfold events in *. simpl in *. rewrite Hts.
    split; [reflexivity | exact Hall].
Qed.

(** C2 as stated fails.  The marker is kept fresh by another client and
    the context is cancelled a second and a half into the acquisition,
    during the second poll.  After five rounds [Lock] has slept five poll
    intervals, the clock is three and a half seconds past the
    cancellation, and the loop is still running; and where the requests
    are slow enough for the loop to end soon, what it returns is the
    deadlock error, not the context's. *)
Lemma Lock_polls_on_after_cancel :
  ctx_Err (cancelled_at (clock empty_bucket + 1500 * time.Millisecond)%Z)
          (clock empty_bucket + 2 * time.Second)%Z = Some Canceled
  /\ result (run kept (Lock plain_Safe 5 example_store
                            (cancelled_at (clock empty_bucket
                                           + 1500 * time.Millisecond)%Z)
                            "example.com")
                 (marked_bucket (clock empty_bucket))) = None
  /\ length (filter (fun ev => is_sleep ev = true)
                    (events (run kept
                                 (Lock plain_Safe 5 example_store
                                       (cancelled_at
                                          (clock empty_bucket
                                           + 1500 * time.Millisecond)%Z)
                                       "example.com")
                                 (marked_bucket (clock empty_bucket))))) = 5%nat
  /\ clock (final (run kept
                         (Lock plain_Safe 5 example_store
                               (cancelled_at (clock empty_bucket
                                              + 1500 * time.Millisecond)%Z)
                               "example.com")
                         (marked_bucket (clock empty_bucket))))
     = (clock empty_bucket + 5 * time.Second)%Z
  /\ result (run kept (Lock plain_Safe 6 example_store
                            (cancelled_at (clock empty_bucket
                                           + 1500 * time.Millisecond)%Z)
                            "example.com")
                 slow_marked_bucket)
     = Some (Some (errorString
                     "possible deadlock: 4h0m3s passed trying to obtain lock for example.com")).
Proof. repeat split; vm_compute; reflexivity. Qed.

(** ** Keys that climb above the prefix *)

Section Climb.

Import filepath.

Lemma split_acc_app (e rest cur : list ascii) :
  no_sep e -> split_acc cur (e ++ rest) = split_acc (rev e ++ cur) rest.
Proof.
  revert cur. induction e as [| c e IH]; intros cur He; [reflexivity |].
  unfold no_sep in He. simpl in He. apply andb_true_iff in He as [Hc He].
  simpl. destruct (IsPathSeparator c); [discriminate |].
  rewrite IH by exact He. simpl. rewrite <- app_assoc. reflexivity.
Qed.

(** Walking a path that begins with the element [e]. *)
Lemma walk_element (e rest : list ascii) (x : list (list ascii)) :
  no_sep e -> at_end_or_sep rest = true ->
  walk x (elements (e ++ rest))
  = match kind_of e with
    | Skip => walk x (elements rest)
    | Up => match x with
            | [] => None
            | _ :: x' => walk x' (elements rest)
            end
    | Name => walk (e :: x) (elements rest)
    end.
Proof.
  intros He Hrest. unfold elements. rewrite split_acc_app by exact He.
  rewrite app_nil_r.
  destruct rest as [| c rest]; simpl.
  - rewrite rev_involutive. destruct (kind_of e); [| destruct x |]; reflexivity.
  - simpl in Hrest. rewrite Hrest, rev_involutive. simpl. reflexivity.
Qed.

Lemma element_spec (p : list ascii) :
  p = ((element p).1 ++ (element p).2)%list
  /\ no_sep (element p).1 /\ at_end_or_sep (element p).2 = true.
Proof.
  induction p as [| c p IH]; [repeat split |].
  simpl. destruct (IsPathSeparator c) eqn:Ec.
  - simpl. rewrite Ec. repeat split.
  - destruct (element p) as [e rest]. simpl in *.
    destruct IH as (Hp & He & Hrest). split; [| split].
    + f_equal. exact Hp.
    + unfold no_sep. simpl. rewrite Ec. exact He.
    + exact Hrest.
Qed.

Lemma backtrack_element (e out : list ascii) :
  no_sep e ->
  backtrack (rev e ++ Separator :: out) 0 = out.
Proof.
  intros He. rewrite <- (rev_involutive e) in He.
  induction (rev e) as [| c l IH].
  { cbn [app backtrack]. change (IsPathSeparator Separator) with true.
    rewrite andb_false_r. reflexivity. }
  cbn [app backtrack].
  assert (Hc : IsPathSeparator c = false /\ no_sep (rev l)).
  { unfold no_sep in *. simpl in He. rewrite forallb_app in He.
    apply andb_true_iff in He as [Hl Hc]. simpl in Hc.
    destruct (IsPathSeparator c); [discriminate | split; [reflexivity | exact Hl]]. }
  destruct Hc as [Hc Hl]. rewrite Hc.
  replace (0 <? length (l ++ Separator :: out))%nat with true.
  - simpl. apply IH, Hl.
  - symmetry. apply Nat.ltb_lt. rewrite length_app. simpl. lia.
Qed.

Lemma backtrack_all (P : list ascii) :
  no_sep P -> backtrack (rev P) 0 = [].
Proof.
  intros HP. rewrite <- (rev_involutive P) in HP.
  induction (rev P) as [| c l IH]; [reflexivity |].
  cbn [backtrack].
  assert (Hc : IsPathSeparator c = false /\ no_sep (rev l)).
  { unfold no_sep in *. simpl in HP. rewrite forallb_app in HP.
    apply andb_true_iff in HP as [Hl Hc]. simpl in Hc.
    destruct (IsPathSeparator c); [discriminate | split; [reflexivity | exact Hl]]. }
  destruct Hc as [Hc Hl]. rewrite Hc. simpl.
  destruct l as [| c' l']; [reflexivity |].
  simpl (0 <? _)%nat. simpl. apply IH, Hl.
Qed.

Lemma render_nonempty (P : list ascii) (st : list (list ascii)) :
  kind_of P = Name -> (0 < length (render P st))%nat.
Proof.
  intros HP. unfold render. rewrite length_app, length_rev.
  destruct P; [discriminate | simpl; lia].
Qed.

(** The loop of [Clean] on a buffer that holds the prefix [P] and the
    stack [st], against the walk of the elements still to read. *)
Lemma clean_loop_walk (P P' : list ascii) :
  segment P -> segment P' ->
  forall (n : nat) (path : list ascii) (st : list (list ascii)),
    (length path <= n)%nat -> names st ->
    match walk st (elements path) with
    | Some st' =>
        clean_loop n false path (render P st) 0 = render P st' /\ names st'
    | None =>
        clean_loop n false path (render P st) 0
        = clean_loop n false path (render P' st) 0
    end.
Proof.
  intros [HP HPk] [HP' HPk'].
  induction n as [| n IH]; intros path st Hlen Hst.
  { destruct path; [| simpl in Hlen; lia]. simpl. split; [reflexivity | exact Hst]. }
  destruct path as [| c p1].
  { simpl. split; [reflexivity | exact Hst]. }
  simpl in Hlen.
  cbn [clean_loop].
  destruct (IsPathSeparator c) eqn:Ec.
  { (* empty path element *)
    replace (walk st (elements (c :: p1))) with (walk st (elements p1)).
    - apply IH; [lia | exact Hst].
    - unfold elements. simpl. rewrite Ec. reflexivity. }
  destruct (is_dot c && at_end_or_sep p1) eqn:Edot.
  { (* . element *)
    apply andb_true_iff in Edot as [Hc Hp1].
    assert (Hne : no_sep [c]) by (unfold no_sep; simpl; rewrite Ec; reflexivity).
    pose proof (walk_element [c] p1 st Hne Hp1) as Hw.
    simpl in Hw. rewrite Hc in Hw. simpl app in Hw. rewrite Hw.
    apply IH; [lia | exact Hst]. }
  destruct (is_dot c && match p1 with
                        | [] => false
                        | c1 :: p2 => is_dot c1 && at_end_or_sep p2
                        end) eqn:Eup.
  { (* .. element *)
    apply andb_true_iff in Eup as [Hc Hp1].
    destruct p1 as [| c1 p2]; [discriminate |].
    apply andb_true_iff in Hp1 as [Hc1 Hp2].
    assert (Ec1 : IsPathSeparator c1 = false).
    { unfold is_dot in Hc1. apply Ascii.eqb_eq in Hc1. subst c1. reflexivity. }
    assert (Hne : no_sep [c; c1])
      by (unfold no_sep; simpl; rewrite Ec, Ec1; reflexivity).
    pose proof (walk_element [c; c1] p2 st Hne Hp2) as Hw.
    simpl in Hw. rewrite Hc, Hc1 in Hw. simpl in Hw.
    rewrite Hw. simpl tail.
    rewrite !(proj2 (Nat.ltb_lt _ _) (render_nonempty _ st HPk)).
    rewrite !(proj2 (Nat.ltb_lt _ _) (render_nonempty _ st HPk')).
    destruct st as [| e st'].
    - unfold render. simpl. rewrite !backtrack_all by assumption. reflexivity.
    - inversion Hst as [| e' st'' He Hst']; subst.
      unfold render. simpl. rewrite <- !app_assoc. simpl.
      rewrite !backtrack_element by exact He.
      simpl in Hlen. apply IH; [lia | exact Hst']. }
  (* real path element *)
  pose proof (element_spec (c :: p1)) as (Hp & He & Hrest).
  destruct (element (c :: p1)) as [e rest] eqn:Eel. simpl in Hp, He, Hrest.
  assert (Hkind : kind_of e = Name).
  { simpl in Eel. rewrite Ec in Eel.
    destruct (element p1) as [e1 rest1] eqn:Eel1. injection Eel as <- <-.
    pose proof (element_spec p1) as (Hp1 & He1 & Hrest1).
    rewrite Eel1 in Hp1, He1, Hrest1. simpl in Hp1, He1, Hrest1.
    destruct e1 as [| c1 e2].
    - simpl in Hp1. subst p1. rewrite Hrest1, andb_true_r in Edot.
      cbn [kind_of]. rewrite Edot. reflexivity.
    - destruct e2 as [| c2 e3]; [| reflexivity].
      simpl in Hp1. subst p1. cbn [app] in Eup.
      rewrite Hrest1, andb_true_r in Eup.
      cbn [kind_of]. rewrite Eup. reflexivity. }
  pose proof (walk_element e rest st He Hrest) as Hw.
  rewrite <- Hp, Hkind in Hw. rewrite Hw.
  assert (Hout : forall Q, kind_of Q = Name ->
            ((rev e ++
              (if (false && negb (length (render Q st) =? 1)%nat)
                  || (negb false && negb (length (render Q st) =? 0)%nat)
               then Separator :: render Q st else render Q st))%list
             = render Q (e :: st))).
  { intros Q HQ. simpl.
    pose proof (render_nonempty Q st HQ) as Hpos.
    destruct (length (render Q st)) eqn:El; [lia |]. simpl.
    unfold render. simpl. rewrite <- !app_assoc. reflexivity. }
  rewrite (Hout P HPk), (Hout P' HPk').
  assert (Hlen' : (length rest <= n)%nat).
  { apply (f_equal (@length ascii)) in Hp. rewrite length_app in Hp.
    simpl in Hp. destruct e; [discriminate Hkind | simpl in Hp; lia]. }
  apply IH; [exact Hlen' | constructor; assumption].
Qed.

Lemma element_length (p : list ascii) :
  (length (element p).2 <= length p)%nat.
Proof.
  induction p as [| c p IH]; [reflexivity |].
  simpl. destruct (IsPathSeparator c); [reflexivity |].
  destruct (element p) as [e rest]. simpl in *. lia.
Qed.

Lemma element_shorter (c : ascii) (p : list ascii) :
  IsPathSeparator c = false ->
  (length (element (c :: p)).2 <= length p)%nat.
Proof.
  intros Ec. simpl. rewrite Ec.
  pose proof (element_length p) as H.
  destruct (element p) as [e rest]. exact H.
Qed.

(** Fuel beyond the length of the path changes nothing. *)
Lemma clean_loop_fuel (n : nat) :
  forall (m : nat) (rooted : bool) (path out : list ascii) (dotdot : nat),
    (length path <= n)%nat -> (length path <= m)%nat ->
    clean_loop n rooted path out dotdot = clean_loop m rooted path out dotdot.
Proof.
  induction n as [| n IH]; intros m rooted path out dotdot Hn Hm.
  { destruct path; [| simpl in Hn; lia]. destruct m; reflexivity. }
  destruct path as [| c p1]; [destruct m; reflexivity |].
  destruct m as [| m]; [simpl in Hm; lia |].
  simpl in Hn, Hm. cbn [clean_loop].
  destruct (IsPathSeparator c) eqn:Ec; [apply IH; lia |].
  destruct (is_dot c && at_end_or_sep p1); [apply IH; lia |].
  assert (Htl : (length (tail p1) <= length p1)%nat)
    by (destruct p1; simpl; lia).
  destruct (is_dot c && _).
  - destruct (dotdot <? length out)%nat; [apply IH; lia |].
    destruct (negb rooted); apply IH; lia.
  - pose proof (element_shorter c p1 Ec) as Hel.
    destruct (element (c :: p1)) as [e rest]. simpl in Hel.
    apply IH; lia.
Qed.

Lemma element_app (e rest : list ascii) :
  no_sep e -> at_end_or_sep rest = true -> element (e ++ rest) = (e, rest).
Proof.
  intros He Hrest. induction e as [| c e IH].
  - destruct rest as [| c rest]; [reflexivity |].
    simpl in *. rewrite Hrest. reflexivity.
  - unfold no_sep in He. simpl in He. apply andb_true_iff in He as [Hc He].
    simpl. destruct (IsPathSeparator c); [discriminate |].
    rewrite (IH He). reflexivity.
Qed.

(** The first round of [Clean] on [P/k] copies the prefix. *)
Lemma clean_loop_prefix (P k : list ascii) (m : nat) :
  segment P ->
  clean_loop (S m) false (P ++ Separator :: k) [] 0
  = clean_loop m false (Separator :: k) (render P []) 0.
Proof.
  intros [HP HPk].
  assert (Hel : element (P ++ Separator :: k) = (P, Separator :: k))
    by (apply element_app; [exact HP | reflexivity]).
  destruct P as [| c P']; [discriminate HPk |].
  pose proof HP as HP0. simpl in HP0. apply andb_true_iff in HP0 as [Hc HP'].
  apply negb_true_iff in Hc.
  cbn [clean_loop app]. rewrite Hc.
  assert (E1 : is_dot c && at_end_or_sep (P' ++ Separator :: k) = false).
  { destruct P' as [| c1 P'']; simpl.
    - simpl in HPk. destruct (is_dot c); [discriminate | reflexivity].
    - simpl in HP'. apply andb_true_iff in HP' as [Hc1 _].
      apply negb_true_iff in Hc1. rewrite Hc1. apply andb_false_r. }
  rewrite E1.
  assert (E2 : is_dot c && match (P' ++ Separator :: k)%list with
                           | [] => false
                           | c1 :: p2 => is_dot c1 && at_end_or_sep p2
                           end = false).
  { destruct P' as [| c1 [| c2 P''']]; simpl.
    - apply andb_false_r.
    - simpl in HPk. rewrite andb_true_r.
      destruct (is_dot c && is_dot c1); [discriminate | reflexivity].
    - simpl in HP'. apply andb_true_iff in HP' as [_ HP'].
      apply andb_true_iff in HP' as [Hc2 _]. apply negb_true_iff in Hc2.
      rewrite Hc2, !andb_false_r. reflexivity. }
  rewrite E2.
  change (c :: (P' ++ Separator :: k)%list) with ((c :: P') ++ Separator :: k)%list.
  rewrite Hel. simpl. unfold render. simpl. rewrite app_nil_r. reflexivity.
Qed.

Lemma rev_render (P : list ascii) (st : list (list ascii)) :
  rev (render P st) = path_of P st.
Proof.
  unfold render, path_of. rewrite rev_app_distr, rev_involutive. f_equal.
  induction st as [| e st IH]; [reflexivity |].
  simpl. rewrite rev_app_distr, IH, map_app, concat_app. simpl.
  rewrite rev_app_distr, rev_involutive, app_nil_r. reflexivity.
Qed.

Lemma list_ascii_of_string_app (a b : string) :
  list_ascii_of_string (a ++ b)
  = (list_ascii_of_string a ++ list_ascii_of_string b)%list.
Proof. induction a as [| c a IH]; simpl; [reflexivity | f_equal; exact IH]. Qed.

Lemma Filename_join_clean (s : S3Store) (key : string) :
  segment (list_ascii_of_string (prefix s)) ->
  Filename s key
  = string_of_list_ascii
      (join_clean (list_ascii_of_string (prefix s)) (list_ascii_of_string key)).
Proof.
  intros [HP HPk]. unfold Filename, Join.
  destruct (prefix s) as [| c P] eqn:EP; [discriminate HPk |].
  cbn [String.eqb]. unfold strings.Join, Clean, FromSlash. simpl Ascii.eqb.
  cbv iota. rewrite !list_ascii_of_string_app.
  cbn [list_ascii_of_string app].
  simpl in HP. apply andb_true_iff in HP as [Hc _]. apply negb_true_iff in Hc.
  rewrite Hc. reflexivity.
Qed.

Lemma join_clean_walk (P P' k : list ascii) :
  segment P -> segment P' ->
  match walk [] (elements k) with
  | Some st => join_clean P k = path_of P st /\ names st
  | None => join_clean P k = join_clean P' k
  end.
Proof.
  intros HP HP'.
  assert (Hpos : forall Q, segment Q -> (1 <= length Q)%nat).
  { intros Q [_ HQ]. destruct Q; [discriminate | simpl; lia]. }
  assert (Hstep : forall Q, segment Q ->
             clean_loop (length (Q ++ Separator :: k)) false
                        (Q ++ Separator :: k) [] 0
             = clean_loop (length P + length k) false (Separator :: k)
                          (render Q []) 0).
  { intros Q HQ. rewrite length_app. simpl length.
    rewrite Nat.add_succ_r, (clean_loop_prefix Q k _ HQ).
    apply clean_loop_fuel; simpl; [specialize (Hpos Q HQ) | specialize (Hpos P HP)]; lia. }
  unfold join_clean. rewrite (Hstep P HP), (Hstep P' HP').
  pose proof (clean_loop_walk P P' HP HP' (length P + length k)
                              (Separator :: k) []) as Hloop.
  replace (walk [] (elements (Separator :: k))) with (walk [] (elements k))
    in Hloop by reflexivity.
  specialize (Hloop ltac:(simpl; specialize (Hpos P HP); lia) ltac:(constructor)).
  destruct (walk [] (elements k)) as [st |].
  - destruct Hloop as [Hloop Hst]. rewrite Hloop. split; [| exact Hst].
    pose proof (render_nonempty P st (proj2 HP)) as Hne.
    destruct (length (render P st)) eqn:El; [lia |]. simpl.
    apply rev_render.
  - rewrite Hloop. reflexivity.
Qed.

Lemma string_of_list_ascii_app (a b : list ascii) :
  string_of_list_ascii (a ++ b)
  = string_of_list_ascii a ++ string_of_list_ascii b.
Proof.
  induction a as [| c a IH]; [reflexivity |].
  simpl. rewrite IH. reflexivity.
Qed.

Lemma HasPrefix_app (a b : string) : strings.HasPrefix (a ++ b) a = true.
Proof.
  induction a as [| c a IH]; [reflexivity |].
  change (String c a ++ b) with (String c (a ++ b)).
  simpl. rewrite Ascii.eqb_refl. exact IH.
Qed.

Lemma HasPrefix_app_app (a c b : string) :
  strings.HasPrefix (a ++ (c ++ b)) (a ++ c) = true.
Proof.
  induction a as [| x a IH]; [exact (HasPrefix_app c b) |].
  change (String x a ++ (c ++ b)) with (String x (a ++ (c ++ b))).
  change (String x a ++ c) with (String x (a ++ c)).
  simpl. rewrite Ascii.eqb_refl. exact IH.
Qed.

Lemma Filename_keeps_prefix (s : S3Store) (key : string) :
  segment_str (prefix s) -> climbs key = false ->
  Filename s key = prefix s
  \/ strings.HasPrefix (Filename s key) (prefix s ++ "/") = true.
Proof.
  intros HP Hclimb. unfold climbs in Hclimb.
  rewrite (Filename_join_clean s key HP).
  pose proof (join_clean_walk _ _ (list_ascii_of_string key) HP HP) as H.
  destruct (walk [] (elements (list_ascii_of_string key))) as [st |];
    [| discriminate].
  destruct H as [-> _]. unfold path_of.
  destruct (rev st) as [| e l].
  - left. simpl. rewrite app_nil_r. apply string_of_list_ascii_of_string.
  - right. simpl. rewrite string_of_list_ascii_app.
    rewrite string_of_list_ascii_of_string. simpl.
    change (String Separator (string_of_list_ascii (e ++ concat (map (cons Separator) l))))
      with ("/" ++ string_of_list_ascii (e ++ concat (map (cons Separator) l))).
    apply HasPrefix_app_app.
Qed.

Lemma Filename_drops_prefix (s s' : S3Store) (key : string) :
  segment_str (prefix s) -> segment_str (prefix s') -> climbs key = true ->
  Filename s key = Filename s' key.
Proof.
  intros HP HP' Hclimb. unfold climbs in Hclimb.
  rewrite (Filename_join_clean s key HP), (Filename_join_clean s' key HP').
  pose proof (join_clean_walk _ _ (list_ascii_of_string key) HP HP') as H.
  destruct (walk [] (elements (list_ascii_of_string key))) as [st |];
    [discriminate |].
  rewrite H. reflexivity.
Qed.

(** A key whose path keeps the prefix under every prefix does not climb. *)
Lemma Filename_keeps_every_prefix (key : string) :
  (forall s : S3Store,
      segment_str (prefix s) ->
      Filename s key = prefix s
      \/ strings.HasPrefix (Filename s key) (prefix s ++ "/") = true) ->
  climbs key = false.
Proof.
  intros Hkeep. destruct (climbs key) eqn:Eclimb; [exfalso | reflexivity].
  pose (sa := {| prefix := "a"; bucket := "" |}).
  pose (sb := {| prefix := "b"; bucket := "" |}).
  assert (Ha : segment_str (prefix sa)) by (split; reflexivity).
  assert (Hb : segment_str (prefix sb)) by (split; reflexivity).
  pose proof (Hkeep sa Ha) as Ka. pose proof (Hkeep sb Hb) as Kb.
  rewrite (Filename_drops_prefix sa sb key Ha Hb Eclimb) in Ka.
  destruct (Filename sb key) as [| c r].
  - destruct Kb as [Kb | Kb]; discriminate Kb.
  - assert (Ea : c = "a"%char).
    { destruct Ka as [Ka | Ka].
      - injection Ka as -> _. reflexivity.
      - simpl in Ka. apply andb_true_iff in Ka as [Ka _].
        apply Ascii.eqb_eq in Ka. exact Ka. }
    assert (Eb : c = "b"%char).
    { destruct Kb as [Kb | Kb].
      - injection Kb as -> _. reflexivity.
      - simpl in Kb. apply andb_true_iff in Kb as [Kb _].
        apply Ascii.eqb_eq in Kb. exact Kb. }
    rewrite Ea in Eb. discriminate Eb.
Qed.

End Climb.

Lemma Filename_cleans (s : S3Store) (key : string) :
  prefix s <> "" ->
  Filename s key = filepath.Clean (prefix s ++ "/" ++ key).
Proof.
  intros Hne. unfold Filename. simpl.
  destruct (prefix s) as [| c P]; [contradiction |]. reflexivity.
Qed.

Lemma requests_at_Filename {W : Type} (h : backend W) (s : S3Store)
      (key value : string) (w : W) :
  map request_key (events (run h (Store s key value) w)) = [Some (Filename s key)]
  /\ map request_key (events (run h (Load s key) w)) = [Some (Filename s key)]
  /\ map request_key (events (run h (Delete s key) w)) = [Some (Filename s key)]
  /\ map request_key (events (run h (Exists s key) w)) = [Some (Filename s key)].
Proof.
  unfold Store, Load, Delete, Exists.
  rewrite !run_bind, !run_perform. unfold events. simpl.
  repeat split.
  - destruct (h _ _ w).1; reflexivity.
  - destruct (h _ (GetObject _) w).1 as [out |]; [destruct (Body out) |];
      reflexivity.
  - destruct (h _ (DeleteObject _) w).1; reflexivity.
  - destruct (h _ (GetObject _) w).1; reflexivity.
Qed.

(** C10 (as amended).  [Filename] cleans the path it joins from the
    prefix and the key, and cleaning resolves the [..] elements of the key
    against the prefix.  The key [../outside] is mapped to [outside], which
    does not begin with the prefix, and [Store], [Load], [Delete] and
    [Exists] send their request for exactly the path [Filename] gives, so
    for that key they work on an object outside the prefix.  A key that
    never climbs above the root keeps the prefix: its path is the prefix
    or begins with the prefix and a slash.  The path of a key that climbs
    is the same whatever the prefix of the store is, so it begins with the
    prefix only where the key spells the prefix itself; the keys that keep
    the prefix, whichever prefix is configured, are those that do not
    climb. *)
Theorem Filename_keeps_prefix_unless_key_climbs :
  (forall (s : S3Store) (key : string),
      prefix s <> "" ->
      Filename s key = filepath.Clean (prefix s ++ "/" ++ key))
  /\ (climbs "../outside" = true
      /\ Filename example_store "../outside" = "outside"
      /\ strings.HasPrefix "outside" (prefix example_store) = false)
  /\ (forall (W : Type) (h : backend W) (s : S3Store) (key value : string)
             (w : W),
         map request_key (events (run h (Store s key value) w))
         = [Some (Filename s key)]
         /\ map request_key (events (run h (Load s key) w))
            = [Some (Filename s key)]
         /\ map request_key (events (run h (Delete s key) w))
            = [Some (Filename s key)]
         /\ map request_key (events (run h (Exists s key) w))
            = [Some (Filename s key)])
  /\ (forall (s : S3Store) (key : string),
         segment_str (prefix s) -> climbs key = false ->
         Filename s key = prefix s
         \/ strings.HasPrefix (Filename s key) (prefix s ++ "/") = true)
  /\ (forall (s s' : S3Store) (key : string),
         segment_str (prefix s) -> segment_str (prefix s') ->
         climbs key = true ->
         Filename s key = Filename s' key)
  /\ (forall key : string,
         (forall s : S3Store,
             segment_str (prefix s) ->
             Filename s key = prefix s
             \/ strings.HasPrefix (Filename s key) (prefix s ++ "/") = true) ->
         climbs key = false).
Proof.
  split; [exact Filename_cleans |].
  split; [repeat split |].
  split; [intros W h s key value w; apply requests_at_Filename |].
  split; [exact Filename_keeps_prefix |].
  split; [exact Filename_drops_prefix | exact Filename_keeps_every_prefix].
Qed.

(** A key that stays below the root, and one that climbs, under the
    prefixes [certmagic] and [elsewhere]. *)
Lemma Filename_keeps_prefix_unless_key_climbs_witness :
  (Filename example_store "example.com/../site/cert.pem" = prefix example_store
   \/ strings.HasPrefix (Filename example_store "example.com/../site/cert.pem")
                        (prefix example_store ++ "/") = true)
  /\ Filename example_store "a/../../certmagic/x"
     = Filename {| prefix := "elsewhere"; bucket := "bucket" |}
                "a/../../certmagic/x".
Proof.
  destruct Filename_keeps_prefix_unless_key_climbs
    as (_ & _ & _ & Hkeep & Hdrop & _).
  split.
  - apply Hkeep; [split; reflexivity | reflexivity].
  - apply Hdrop; [split; reflexivity | split; reflexivity | reflexivity].
Defined.

(** C10 as stated fails: the key [../certmagic/x] climbs above the root,
    and its path still begins with the prefix of the store, which the key
    spells itself.  So the prefix is not kept only by the keys that do not
    climb. *)
Lemma climbing_key_spells_the_prefix :
  climbs "../certmagic/x" = true
  /\ Filename example_store "../certmagic/x" = "certmagic/x"
  /\ strings.HasPrefix (Filename example_store "../certmagic/x")
                       (prefix example_store ++ "/") = true
  /\ ~ (forall key : string,
          Filename example_store key = prefix example_store
          \/ strings.HasPrefix (Filename example_store key)
                               (prefix example_store ++ "/") = true ->
          climbs key = false).
Proof.
  split; [reflexivity |]. split; [reflexivity |]. split; [reflexivity |].
  intros H. specialize (H "../certmagic/x" (or_intror eq_refl)).
  discriminate H.
Qed.

Example climbs_t1 : climbs "a/./b/.." = false. Proof. reflexivity. Qed.
Example climbs_t2 : climbs "a/../../x" = true. Proof. reflexivity. Qed.
Example climbs_t3 : climbs "/../x" = true. Proof. reflexivity. Qed.
Example climbs_t4 : climbs "a//b/../../c/..." = false. Proof. reflexivity. Qed.
Example Filename_t1 :
  Filename example_store "../certmagic/x" = "certmagic/x"
  /\ Filename {| prefix := "elsewhere"; bucket := "bucket" |} "../certmagic/x"
     = "certmagic/x".
Proof. split; reflexivity. Qed.

(** * Further properties of the store *)

(** ** Normal forms of keys, and the lock file's path *)

Lemma split_acc_no_sep (p cur : list ascii) :
  no_sep (rev cur) -> Forall no_sep (split_acc cur p).
Proof.
  revert cur. induction p as [| c p IH]; intros cur Hcur; simpl.
  - constructor; [exact Hcur | constructor].
  - destruct (filepath.IsPathSeparator c) eqn:Ec.
    + constructor; [exact Hcur | apply IH; reflexivity].
    + apply IH. unfold no_sep in *. simpl. rewrite forallb_app, Hcur. simpl.
      rewrite Ec. reflexivity.
Qed.

Lemma elements_no_sep (p : list ascii) : Forall no_sep (elements p).
Proof. apply split_acc_no_sep. reflexivity. Qed.

Lemma walk_names (elems : list (list ascii)) :
  forall st st' : list (list ascii),
    Forall name st -> Forall no_sep elems -> walk st elems = Some st' ->
    Forall name st'.
Proof.
  induction elems as [| e elems IH]; intros st st' Hst Hel Hw; simpl in Hw.
  - injection Hw as <-. exact Hst.
  - inversion Hel as [| e' l He Hel']; subst.
    destruct (kind_of e) eqn:Ek.
    + eapply IH; eassumption.
    + destruct st as [| x st0]; [discriminate |].
      inversion Hst; subst. eapply IH; eassumption.
    + eapply IH; [| eassumption | eassumption].
      constructor; [split; assumption | exact Hst].
Qed.

(** The elements of a path written from names are these names. *)
Lemma elements_join (l : list (list ascii)) :
  forall e : list ascii,
    no_sep e -> Forall no_sep l ->
    elements (e ++ concat (map (cons filepath.Separator) l)) = e :: l.
Proof.
  induction l as [| x l IH]; intros e He Hl; unfold elements in *.
  - simpl. rewrite split_acc_app by exact He. simpl.
    rewrite app_nil_r, rev_involutive. reflexivity.
  - inversion Hl as [| x' l' Hx Hl']; subst.
    rewrite split_acc_app by exact He. simpl.
    rewrite app_nil_r, rev_involutive. f_equal.
    apply IH; assumption.
Qed.

Lemma walk_all_names (l : list (list ascii)) :
  forall st : list (list ascii),
    Forall name l -> walk st l = Some (rev l ++ st)%list.
Proof.
  induction l as [| e l IH]; intros st Hl; [reflexivity |].
  inversion Hl as [| e' l' [_ He] Hl']; subst.
  simpl. rewrite He, IH by exact Hl'. rewrite <- app_assoc. reflexivity.
Qed.

Lemma segment_name (P : list ascii) : segment P <-> name P.
Proof. reflexivity. Qed.

Lemma normal_form_names (key : string) (st : list (list ascii)) :
  normal_form key = Some st -> Forall name st.
Proof.
  intros H. eapply walk_names; [constructor | apply elements_no_sep | exact H].
Qed.

Lemma Filename_normal (s : S3Store) (key : string) (st : list (list ascii)) :
  segment_str (prefix s) -> normal_form key = Some st ->
  Filename s key
  = string_of_list_ascii (path_of (list_ascii_of_string (prefix s)) st).
Proof.
  intros HP Hst. rewrite (Filename_join_clean s key HP).
  pose proof (join_clean_walk _ _ (list_ascii_of_string key) HP HP) as H.
  unfold normal_form in Hst. rewrite Hst in H. destruct H as [-> _].
  reflexivity.
Qed.

Lemma Forall_name_no_sep (l : list (list ascii)) :
  Forall name l -> Forall no_sep l.
Proof.
  intros H. eapply Forall_impl; [exact H |]. intros e [He _]. exact He.
Qed.

Lemma normal_form_path_of (P : list ascii) (st : list (list ascii)) :
  name P -> Forall name st ->
  normal_form (string_of_list_ascii (path_of P st)) = Some (st ++ [P])%list.
Proof.
  intros HP Hst. unfold normal_form, path_of.
  rewrite list_ascii_of_string_of_list_ascii.
  rewrite elements_join;
    [| exact (proj1 HP) | apply Forall_name_no_sep, Forall_rev, Hst].
  rewrite walk_all_names by (constructor; [exact HP | apply Forall_rev, Hst]).
  simpl. rewrite rev_involutive, app_nil_r. reflexivity.
Qed.

Lemma string_of_list_ascii_inj (a b : list ascii) :
  string_of_list_ascii a = string_of_list_ascii b -> a = b.
Proof.
  intros H. apply (f_equal list_ascii_of_string) in H.
  rewrite !list_ascii_of_string_of_list_ascii in H. exact H.
Qed.

Lemma path_of_inj (P : list ascii) (st st' : list (list ascii)) :
  name P -> Forall name st -> Forall name st' ->
  path_of P st = path_of P st' -> st = st'.
Proof.
  intros HP Hst Hst' H. apply (f_equal elements) in H. unfold path_of in H.
  rewrite !elements_join in H
    by (try exact (proj1 HP); apply Forall_name_no_sep, Forall_rev; assumption).
  injection H as H. apply (f_equal (@rev _)) in H.
  rewrite !rev_involutive in H. exact H.
Qed.

(** X1.  Under a prefix that is one name, two keys that stay below the
    prefix are mapped by [Filename] to the same path exactly when they
    have the same normal form: the same names in the same order once empty
    elements and [.] are dropped and every [..] has cancelled the name
    before it. *)
Theorem Filename_same_path_iff_same_normal_form
        (s : S3Store) (key key' : string) (st st' : list (list ascii)) :
  segment_str (prefix s) ->
  normal_form key = Some st -> normal_form key' = Some st' ->
  (Filename s key = Filename s key' <-> st = st').
Proof.
  intros HP Hk Hk'.
  rewrite (Filename_normal s key st HP Hk), (Filename_normal s key' st' HP Hk').
  split.
  - intros H. apply string_of_list_ascii_inj in H.
    eapply path_of_inj; [exact HP | | | exact H];
      eapply normal_form_names; eassumption.
  - intros ->. reflexivity.
Qed.

Lemma Filename_same_path_iff_same_normal_form_witness :
  Filename example_store "example.com//site/../cert.pem"
  = Filename example_store "./example.com/cert.pem/".
Proof.
  apply (Filename_same_path_iff_same_normal_form
           example_store "example.com//site/../cert.pem"
           "./example.com/cert.pem/"
           [list_ascii_of_string "cert.pem"; list_ascii_of_string "example.com"]
           [list_ascii_of_string "cert.pem"; list_ascii_of_string "example.com"]).
  - split; reflexivity.
  - reflexivity.
  - reflexivity.
  - reflexivity.
Defined.

Lemma string_append_assoc (a b c : string) : (a ++ b) ++ c = a ++ (b ++ c).
Proof.
  induction a as [| x a IH]; [reflexivity |].
  change (String x ((a ++ b) ++ c) = String x (a ++ (b ++ c))).
  rewrite IH. reflexivity.
Qed.

Lemma string_append_nil (a : string) : a ++ "" = a.
Proof.
  induction a as [| x a IH]; [reflexivity |].
  change (String x (a ++ "") = String x a). rewrite IH. reflexivity.
Qed.

Lemma string_length_append (a b : string) :
  String.length (a ++ b) = (String.length a + String.length b)%nat.
Proof.
  induction a as [| x a IH]; [reflexivity |].
  change (S (String.length (a ++ b)) = S (String.length a + String.length b)).
  rewrite IH. reflexivity.
Qed.

Lemma climbs_normal_form (key : string) :
  climbs key = false -> exists st, normal_form key = Some st.
Proof.
  unfold climbs, normal_form.
  destruct (walk [] _) as [st |]; [eexists; reflexivity | discriminate].
Qed.

(** Mapping a path that is already mapped puts the prefix in front again. *)
Lemma Filename_Filename (s : S3Store) (key : string) :
  segment_str (prefix s) -> climbs key = false ->
  Filename s (Filename s key) = prefix s ++ "/" ++ Filename s key.
Proof.
  intros HP Hclimb. destruct (climbs_normal_form key Hclimb) as [st Hst].
  pose proof (normal_form_names key st Hst) as Hnames.
  rewrite (Filename_normal s key st HP Hst).
  rewrite (Filename_normal s _ _ HP (normal_form_path_of _ st HP Hnames)).
  unfold path_of. rewrite rev_app_distr. simpl.
  rewrite !string_of_list_ascii_app. simpl.
  rewrite !string_of_list_ascii_app, string_of_list_ascii_of_string.
  reflexivity.
Qed.

Lemma Filename_Filename_neq (s : S3Store) (key : string) :
  segment_str (prefix s) -> climbs key = false ->
  Filename s (Filename s key) <> Filename s key.
Proof.
  intros HP Hclimb. rewrite (Filename_Filename s key HP Hclimb).
  intros H. apply (f_equal String.length) in H.
  rewrite !string_length_append in H. simpl in H. lia.
Qed.

(** X2.  [Filename] is not idempotent: under a prefix that is one name,
    mapping the path of a key that stays below the prefix puts the prefix
    in front once more, so the result differs from the path. *)
Theorem Filename_not_idempotent (s : S3Store) (key : string) :
  segment_str (prefix s) -> climbs key = false ->
  Filename s (Filename s key) = prefix s ++ "/" ++ Filename s key
  /\ Filename s (Filename s key) <> Filename s key.
Proof.
  intros HP Hclimb.
  split; [exact (Filename_Filename s key HP Hclimb) |].
  exact (Filename_Filename_neq s key HP Hclimb).
Qed.

Lemma Filename_not_idempotent_witness :
  Filename example_store (Filename example_store "example.com/cert.pem")
  = prefix example_store ++ "/" ++ Filename example_store "example.com/cert.pem"
  /\ Filename example_store (Filename example_store "example.com/cert.pem")
     <> Filename example_store "example.com/cert.pem".
Proof.
  apply (Filename_not_idempotent example_store "example.com/cert.pem").
  - split; reflexivity.
  - reflexivity.
Defined.

Lemma lock_element_name (safe : list ascii) :
  no_sep safe -> name (safe ++ list_ascii_of_string ".lock").
Proof.
  intros Hs. split.
  - unfold no_sep in *. rewrite forallb_app, Hs. reflexivity.
  - destruct safe as [| a [| b [| c rest]]]; reflexivity.
Qed.

(** The lock file of a key is the path of the key [locks/<safe>.lock]. *)
Lemma lockFileName_Filename (Safe : string -> string) (s : S3Store)
      (key : string) :
  segment_str (prefix s) ->
  lockFileName Safe s key = Filename s ("locks/" ++ Safe key ++ ".lock").
Proof.
  intros HP.
  assert (Hdir : lockDir s = prefix s ++ "/locks").
  { change (lockDir s) with (Filename s "locks").
    rewrite (Filename_normal s "locks" [list_ascii_of_string "locks"] HP eq_refl).
    unfold path_of. simpl. rewrite string_of_list_ascii_app.
    rewrite string_of_list_ascii_of_string. reflexivity. }
  assert (Hne : prefix s <> "").
  { destruct HP as [_ Hk]. destruct (prefix s); [discriminate Hk | discriminate]. }
  unfold lockFileName. rewrite Hdir, (Filename_cleans s _ Hne).
  destruct (prefix s) as [| c P]; [contradiction |].
  cbn [filepath.Join String.eqb]. unfold strings.Join.
  f_equal.
  change (String filepath.Separator "") with "/".
  change ("/locks") with ("/" ++ "locks").
  rewrite !string_append_assoc. reflexivity.
Qed.

Lemma lock_normal_form (safe : string) :
  no_sep (list_ascii_of_string safe) ->
  normal_form ("locks/" ++ safe ++ ".lock")
  = Some [(list_ascii_of_string safe ++ list_ascii_of_string ".lock")%list;
          list_ascii_of_string "locks"].
Proof.
  intros Hs. unfold normal_form.
  change ("locks/" ++ safe ++ ".lock") with ("locks" ++ "/" ++ safe ++ ".lock").
  rewrite !list_ascii_of_string_app.
  pose proof (lock_element_name _ Hs) as Hn.
  assert (Hl : Forall no_sep [(list_ascii_of_string safe
                               ++ list_ascii_of_string ".lock")%list])
    by (constructor; [exact (proj1 Hn) | constructor]).
  pose proof (elements_join _ (list_ascii_of_string "locks") eq_refl Hl) as He.
  simpl concat in He. rewrite app_nil_r in He.
  change (list_ascii_of_string "/") with [filepath.Separator].
  simpl app at 2. rewrite He.
  rewrite walk_all_names; [reflexivity |].
  constructor; [split; reflexivity | constructor; [exact Hn | constructor]].
Qed.

Lemma lockFileName_path (Safe : string -> string) (s : S3Store)
        (key : string) :
  segment_str (prefix s) -> no_sep (list_ascii_of_string (Safe key)) ->
  lockFileName Safe s key = prefix s ++ "/locks/" ++ Safe key ++ ".lock".
Proof.
  intros HP Hs. rewrite (lockFileName_Filename Safe s key HP).
  rewrite (Filename_normal s _ _ HP (lock_normal_form _ Hs)).
  unfold path_of. simpl.
  rewrite !string_of_list_ascii_app. simpl.
  rewrite !string_of_list_ascii_app, !string_of_list_ascii_of_string.
  simpl string_of_list_ascii. rewrite string_append_nil. reflexivity.
Qed.

Lemma string_app_inv_tail (a b c : string) : a ++ c = b ++ c -> a = b.
Proof.
  intros H. apply (f_equal list_ascii_of_string) in H.
  rewrite !list_ascii_of_string_app in H. apply app_inv_tail in H.
  apply (f_equal string_of_list_ascii) in H.
  rewrite !string_of_list_ascii_of_string in H. exact H.
Qed.

(** X3.  Under a prefix that is one name, and for keys whose sanitized
    form holds no separator, the lock file of a key is
    [<prefix>/locks/<safe key>.lock], and two keys share a lock file
    exactly when their sanitized forms are equal. *)
Theorem lockFileName_layout (Safe : string -> string) (s : S3Store)
        (key key' : string) :
  segment_str (prefix s) ->
  no_sep (list_ascii_of_string (Safe key)) ->
  no_sep (list_ascii_of_string (Safe key')) ->
  lockFileName Safe s key = prefix s ++ "/locks/" ++ Safe key ++ ".lock"
  /\ (lockFileName Safe s key = lockFileName Safe s key' <->
      Safe key = Safe key').
Proof.
  intros HP Hs Hs'.
  rewrite (lockFileName_path Safe s key HP Hs),
    (lockFileName_path Safe s key' HP Hs').
  split; [reflexivity |]. split.
  - intros H. apply String.app_inj in H. apply String.app_inj in H.
    apply string_app_inv_tail in H. exact H.
  - intros ->. reflexivity.
Qed.

Lemma lockFileName_layout_witness :
  lockFileName plain_Safe example_store "example.com"
  = "certmagic/locks/example.com.lock".
Proof.
  refine (proj1 (lockFileName_layout plain_Safe example_store "example.com"
                   "example.org" _ _ _)).
  - split; reflexivity.
  - reflexivity.
  - reflexivity.
Defined.

Lemma lock_path_shadow_differs (Safe : string -> string) (s : S3Store)
      (key : string) :
  segment_str (prefix s) -> no_sep (list_ascii_of_string (Safe key)) ->
  Filename s (lockFileName Safe s key) <> lockFileName Safe s key.
Proof.
  intros HP Hs. rewrite (lockFileName_Filename Safe s key HP).
  apply (Filename_Filename_neq s _ HP).
  unfold climbs. pose proof (lock_normal_form _ Hs) as H.
  unfold normal_form in H. rewrite H. reflexivity.
Qed.

(** C6 (the code departs from it).  A third party keeps the marker fresh:
    it is in the bucket, just rewritten, before every request, and [Stat]
    of the lock file finds it.  [Lock] never looks at it: the probe of
    [createLockFile] asks for the path [Filename] maps the lock file to,
    finds nothing there, and the marker is written over.  [Lock] returns
    nil in its first round, however many rounds it is given; it neither
    waits nor reports a deadlock. *)
Theorem Lock_overwrites_a_marker_kept_fresh :
  (forall (Safe : string -> string) (s : S3Store) (ctx : Context)
          (key : string) (rounds : nat) (w : Bucket),
      segment_str (prefix s) ->
      no_sep (list_ascii_of_string (Safe key)) ->
      objects w !! Filename s (lockFileName Safe s key) = None ->
      result (run (interleave (keep_fresh (lockFileName Safe s key)) s3)
                  (Stat s (lockFileName Safe s key)) w)
      = ({| info_Key := lockFileName Safe s key; info_Size := 4;
            info_Modified := clock w; info_IsTerminal := true |}, None)
      /\ result (run (interleave (keep_fresh (lockFileName Safe s key)) s3)
                     (Lock Safe (S rounds) s ctx key) w)
         = Some None
      /\ events (run (interleave (keep_fresh (lockFileName Safe s key)) s3)
                     (Lock Safe (S rounds) s ctx key) w)
         = [EvNow (clock w);
            EvGetObject
              {| get_Bucket := bucket s;
                 get_Key := Filename s (lockFileName Safe s key) |}
              (inr noSuchKey);
            EvPutObject
              {| put_Bucket := bucket s;
                 put_Key := lockFileName Safe s key;
                 put_Body := "lock" |} None])
  /\ result (run kept (Stat example_store "certmagic/locks/example.com.lock")
                 held_bucket)
     = ({| info_Key := "certmagic/locks/example.com.lock"; info_Size := 4;
           info_Modified := clock held_bucket; info_IsTerminal := true |},
        None)
  /\ result (run kept (Lock plain_Safe 1 example_store background
                            "example.com") held_bucket)
     = Some None
  /\ events (run kept (Lock plain_Safe 1 example_store background
                            "example.com") held_bucket)
     = [EvNow (clock held_bucket);
        EvGetObject
          {| get_Bucket := "bucket";
             get_Key := "certmagic/certmagic/locks/example.com.lock" |}
          (inr noSuchKey);
        EvPutObject
          {| put_Bucket := "bucket";
             put_Key := "certmagic/locks/example.com.lock";
             put_Body := "lock" |} None].
Proof.
  split; [| repeat split; vm_compute; reflexivity].
  intros Safe s ctx key rounds w HP Hs Hnone.
  pose proof (lock_path_shadow_differs Safe s key HP Hs) as Hne.
  set (lf := lockFileName Safe s key) in *.
  split.
  - rewrite run_Stat. unfold result, interleave. simpl.
    rewrite lookup_insert_eq. reflexivity.
  - assert (HLock :
              run (interleave (keep_fresh lf) s3) (Lock Safe 1 s ctx key) w
              = (Some None,
                 (interleave (keep_fresh lf) s3 _ (put_lock s lf)
                    (interleave (keep_fresh lf) s3 _
                       (get_at s (Filename s lf))
                       (interleave (keep_fresh lf) s3 _ Now w).2).2).2,
                 [EvNow (clock w);
                  EvGetObject {| get_Bucket := bucket s;
                                 get_Key := Filename s lf |} (inr noSuchKey);
                  EvPutObject {| put_Bucket := bucket s; put_Key := lf;
                                 put_Body := "lock" |} None])).
    { unfold Lock. rewrite run_bind, run_perform.
      rewrite run_Lock_loop_S, run_Lock_round, run_createLockFile.
      fold lf. unfold interleave. simpl.
      rewrite !lookup_insert_ne by (intros E; apply Hne; symmetry; exact E).
      rewrite Hnone. reflexivity. }
    assert (Hres : forall n,
               run (interleave (keep_fresh lf) s3)
                   (Lock Safe (1 + n) s ctx key) w
               = run (interleave (keep_fresh lf) s3)
                     (Lock Safe 1 s ctx key) w).
    { intros n. unfold Lock. rewrite !run_bind, !run_perform. cbn [fst snd].
      rewrite (Lock_loop_more _ s key _ _ 1 n _ None); [reflexivity |].
      fold (Lock Safe 1 s ctx key).
      unfold Lock in HLock. rewrite run_bind, run_perform in HLock.
      cbn [fst snd] in HLock.
      destruct (run (interleave (keep_fresh lf) s3)
                    (Lock_loop 1 s key _ _) _) as [[r w2] t2].
      injection HLock as -> _ _. reflexivity. }
    change (S rounds) with (1 + rounds)%nat. rewrite Hres, HLock.
    split; reflexivity.
Qed.


(** ** The value store on the reference backend *)

Lemma run_s3_Store (s : S3Store) (key value : string) (w : Bucket) :
  run s3 (Store s key value) w
  = (None,
     set_objects (<[Filename s key := stored value w]> (objects w))
                 (tick (latency w) w),
     [EvPutObject {| put_Bucket := bucket s; put_Key := Filename s key;
                     put_Body := value |} None]).
Proof. reflexivity. Qed.

Lemma result_s3_Load (s : S3Store) (key : string) (w : Bucket) :
  result (run s3 (Load s key) w)
  = match objects w !! Filename s key with
    | Some o => (Some (obj_Body o), None)
    | None => (None, Some noSuchKey)
    end.
Proof.
  unfold Load. rewrite run_bind, run_perform. unfold result. simpl.
  destruct (objects w !! Filename s key); reflexivity.
Qed.

Lemma result_s3_Exists (s : S3Store) (key : string) (w : Bucket) :
  result (run s3 (Exists s key) w)
  = match objects w !! Filename s key with
    | Some _ => true
    | None => false
    end.
Proof.
  rewrite run_Exists. unfold result. simpl.
  destruct (objects w !! Filename s key); reflexivity.
Qed.

Lemma run_s3_Delete (s : S3Store) (key : string) (w : Bucket) :
  run s3 (Delete s key) w
  = (None,
     set_objects (delete (Filename s key) (objects w)) (tick (latency w) w),
     [EvDeleteObject {| del_Bucket := bucket s; del_Key := Filename s key |}
                     None]).
Proof. reflexivity. Qed.

Lemma result_s3_Stat (s : S3Store) (key : string) (w : Bucket) :
  result (run s3 (Stat s key) w)
  = match objects w !! key with
    | Some o =>
        ({| info_Key := key;
            info_Size := Z.of_nat (String.length (obj_Body o));
            info_Modified := obj_Modified o; info_IsTerminal := true |}, None)
    | None =>
        ({| info_Key := ""; info_Size := 0; info_Modified := zeroTime;
            info_IsTerminal := false |}, Some noSuchKey)
    end.
Proof.
  rewrite run_Stat. unfold result. simpl.
  destruct (objects w !! key); reflexivity.
Qed.

(** X4.  On the reference backend [Store] returns nil, and then [Load] of
    the same key returns the stored value with no error and [Exists] of
    the key is true. *)
Theorem Store_Load_round_trip (s : S3Store) (key value : string) (w : Bucket) :
  result (run s3 (Store s key value) w) = None
  /\ result (run s3 (Load s key) (final (run s3 (Store s key value) w)))
     = (Some value, None)
  /\ result (run s3 (Exists s key) (final (run s3 (Store s key value) w)))
     = true.
Proof.
  rewrite run_s3_Store, result_s3_Load, result_s3_Exists.
  unfold result, final. simpl. rewrite lookup_insert_eq. repeat split.
Qed.

(** X5.  On the reference backend, after [Store] of [key] a [Load] of
    [key'] returns the new value when both keys are mapped to the same
    path, and what it returned before otherwise. *)
Theorem Store_changes_one_path
        (s : S3Store) (key key' value : string) (w : Bucket) :
  result (run s3 (Load s key') (final (run s3 (Store s key value) w)))
  = if decide (Filename s key' = Filename s key)
    then (Some value, None)
    else result (run s3 (Load s key') w).
Proof.
  rewrite run_s3_Store, !result_s3_Load. unfold final. simpl.
  case_decide as E.
  - rewrite E, lookup_insert_eq. reflexivity.
  - rewrite lookup_insert_ne by (intros E'; apply E; symmetry; exact E').
    reflexivity.
Qed.

(** X6.  On the reference backend [Delete] returns nil whether or not the
    key is stored; afterwards [Exists] of the key is false and [Load]
    fails with NoSuchKey; deleting an absent key leaves the objects as
    they were, and keys mapped to another path are not affected. *)
Theorem Delete_then_absent (s : S3Store) (key key' : string) (w : Bucket) :
  result (run s3 (Delete s key) w) = None
  /\ result (run s3 (Exists s key) (final (run s3 (Delete s key) w))) = false
  /\ result (run s3 (Load s key) (final (run s3 (Delete s key) w)))
     = (None, Some noSuchKey)
  /\ (objects w !! Filename s key = None ->
      objects (final (run s3 (Delete s key) w)) = objects w)
  /\ (Filename s key' <> Filename s key ->
      result (run s3 (Load s key') (final (run s3 (Delete s key) w)))
      = result (run s3 (Load s key') w)).
Proof.
  rewrite run_s3_Delete, result_s3_Exists, !result_s3_Load.
  unfold result, final. simpl. rewrite lookup_delete_eq.
  repeat split.
  - intros H. apply delete_id. exact H.
  - intros H.
    rewrite lookup_delete_ne by (intros E; apply H; symmetry; exact E).
    reflexivity.
Qed.

Lemma Delete_then_absent_witness :
  objects (final (run s3 (Delete example_store "example.com/cert.pem")
                      empty_bucket))
  = objects empty_bucket
  /\ result (run s3 (Load example_store "example.org/cert.pem")
                 (final (run s3 (Delete example_store "example.com/cert.pem")
                             empty_bucket)))
     = result (run s3 (Load example_store "example.org/cert.pem")
                   empty_bucket).
Proof.
  pose proof (Delete_then_absent example_store "example.com/cert.pem"
                "example.org/cert.pem" empty_bucket)
    as (_ & _ & _ & H4 & H5).
  split.
  - apply H4. reflexivity.
  - apply H5. vm_compute. discriminate.
Defined.

(** X7.  On the reference backend, [Stat] of the path [Filename] maps a
    key to finds what [Store] has written for the key: the path as key,
    the length of the value as size, the time of the write as
    modification time, and [IsTerminal] set. *)
Theorem Stat_of_mapped_path (s : S3Store) (key value : string) (w : Bucket) :
  result (run s3 (Stat s (Filename s key))
              (final (run s3 (Store s key value) w)))
  = ({| info_Key := Filename s key;
        info_Size := Z.of_nat (String.length value);
        info_Modified := (clock w + Z.max 0 (latency w))%Z;
        info_IsTerminal := true |}, None).
Proof.
  rewrite run_s3_Store, result_s3_Stat. unfold final. simpl.
  rewrite lookup_insert_eq. reflexivity.
Qed.

(** ** What [Lock] asks of the backend *)

Ltac lock_events :=
  unfold get_at, del_at, put_lock; simpl;
  repeat match goal with
         | |- Forall _ _ => constructor
         end;
  simpl; auto.

Section LockEvents.

Context {W : Type} (h : backend W).
Variables (s : S3Store) (key lockFile : string).

Lemma createLockFile_lock_events (w : W) :
  Forall (lock_event s lockFile)
         (events (run h (createLockFile s lockFile) w)).
Proof.
  rewrite run_createLockFile. simpl.
  destruct (found _); unfold events; lock_events.
Qed.

Lemma after_exists_lock_events (start : Time) (w1 : W) :
  Forall (lock_event s lockFile)
         (events (after_exists h s key lockFile start w1)).
Proof.
  unfold after_exists, events.
  destruct (h _ (get_at s lockFile) w1) as [[out | err] w2]; simpl.
  2: { lock_events. }
  destruct (staleLockDuration <? _)%Z; simpl.
  { lock_events. }
  destruct (staleLockDuration * 2 <? _)%Z; lock_events.
Qed.

Lemma Lock_round_lock_events (start : Time) (w : W) :
  Forall (lock_event s lockFile)
         (events (run h (Lock_round s key lockFile start) w)).
Proof.
  rewrite run_Lock_round.
  pose proof (createLockFile_lock_events w) as Hc.
  destruct (run h (createLockFile s lockFile) w) as [[[e |] w1] t1];
    unfold events in *; simpl in Hc |- *; [| exact Hc].
  destruct (negb (String.eqb (Error e) lockFileExists)); simpl.
  { apply Forall_app. split; [exact Hc | lock_events]. }
  pose proof (after_exists_lock_events start w1) as Ha.
  destruct (after_exists h s key lockFile start w1) as [[f w2] t2].
  unfold events in Ha. simpl in Ha |- *.
  apply Forall_app. split; assumption.
Qed.

Lemma Lock_loop_lock_events (start : Time) (rounds : nat) (w : W) :
  Forall (lock_event s lockFile)
         (events (run h (Lock_loop rounds s key lockFile start) w)).
Proof.
  revert w. induction rounds as [| rounds IH]; intros w.
  - constructor.
  - rewrite run_Lock_loop_S.
    pose proof (Lock_round_lock_events start w) as Hr.
    destruct (run h (Lock_round s key lockFile start) w) as [[[| err] w1] t1];
      unfold events in *; simpl in Hr |- *; [| exact Hr].
    specialize (IH w1).
    destruct (run h (Lock_loop rounds s key lockFile start) w1) as [[r w2] t2].
    simpl in IH |- *. apply Forall_app. split; assumption.
Qed.

(** A round returns nil only after it has written the marker. *)
Lemma Lock_round_nil (start : Time) (w : W) :
  result (run h (Lock_round s key lockFile start) w) = Return None ->
  exists r : GetObjectOutput + error,
    events (run h (Lock_round s key lockFile start) w)
    = [EvGetObject {| get_Bucket := bucket s;
                      get_Key := Filename s lockFile |} r;
       EvPutObject {| put_Bucket := bucket s; put_Key := lockFile;
                      put_Body := "lock" |} None]
    /\ found r = false.
Proof.
  rewrite run_Lock_round, run_createLockFile. unfold result, events. simpl.
  destruct (h _ (get_at s (Filename s lockFile)) w) as [r w1]. simpl.
  destruct (found r) eqn:Ef; simpl.
  - unfold after_exists.
    destruct (h _ (get_at s lockFile) w1) as [[out | err] w2]; simpl.
    2: { destruct (As_NoSuchKey err); discriminate. }
    destruct (staleLockDuration <? _)%Z; simpl; [discriminate |].
    destruct (staleLockDuration * 2 <? _)%Z; discriminate.
  - destruct (h _ (put_lock s lockFile) w1) as [[e |] w2]; simpl.
    + destruct (negb (String.eqb (Error e) lockFileExists)); simpl;
        [discriminate |].
      unfold after_exists.
      destruct (h _ (get_at s lockFile) w2) as [[out | err] w3]; simpl.
      2: { destruct (As_NoSuchKey err); discriminate. }
      destruct (staleLockDuration <? _)%Z; simpl; [discriminate |].
      destruct (staleLockDuration * 2 <? _)%Z; discriminate.
    + intros _. exists r. split; [reflexivity | exact Ef].
Qed.

Lemma Lock_loop_nil (start : Time) (rounds : nat) (w : W) :
  result (run h (Lock_loop rounds s key lockFile start) w) = Some None ->
  exists (pre : list event) (r : GetObjectOutput + error),
    events (run h (Lock_loop rounds s key lockFile start) w)
    = (pre ++ [EvGetObject {| get_Bucket := bucket s;
                              get_Key := Filename s lockFile |} r;
               EvPutObject {| put_Bucket := bucket s; put_Key := lockFile;
                              put_Body := "lock" |} None])%list
    /\ found r = false.
Proof.
  revert w. induction rounds as [| rounds IH]; intros w; [discriminate |].
  rewrite run_Lock_loop_S.
  pose proof (Lock_round_nil start w) as Hr.
  destruct (run h (Lock_round s key lockFile start) w) as [[[| err] w1] t1].
  - specialize (IH w1).
    destruct (run h (Lock_loop rounds s key lockFile start) w1) as [[r w2] t2].
    unfold result, events in *. simpl in *. intros Hres.
    destruct (IH Hres) as (pre & r' & -> & Hf).
    exists (t1 ++ pre)%list, r'. rewrite <- app_assoc. split; [reflexivity | exact Hf].
  - unfold result, events in *. simpl in *. intros Hres.
    injection Hres as ->. destruct (Hr eq_refl) as (r & -> & Hf).
    exists [], r. split; [reflexivity | exact Hf].
Qed.

End LockEvents.

(** X8.  On every backend and for every number of rounds, [Lock] reads
    only the lock file's path and the path [Filename] maps it to, writes
    only the body [lock] at the lock file's path, deletes only the lock
    file's path, never lists the bucket, and sleeps only for
    [fileLockPollInterval]. *)
Theorem Lock_touches_only_the_lock_paths
        (W : Type) (h : backend W) (Safe : string -> string) (s : S3Store)
        (ctx : Context) (key : string) (rounds : nat) (w : W) :
  Forall (lock_event s (lockFileName Safe s key))
         (events (run h (Lock Safe rounds s ctx key) w)).
Proof.
  unfold Lock. rewrite run_bind, run_perform. simpl.
  pose proof (Lock_loop_lock_events h s key (lockFileName Safe s key)
                                    (h _ Now w).1 rounds (h _ Now w).2) as H.
  destruct (run h (Lock_loop rounds s key _ _) _) as [[r w2] t2].
  unfold events in *. simpl in *. constructor; [exact Logic.I | exact H].
Qed.

(** X9.  On every backend, when [Lock] returns nil the last two requests
    it has sent are the read of [Exists], answered so that [Exists] is
    false, and the write of the marker, answered with no error. *)
Theorem Lock_returns_nil_only_after_writing
        (W : Type) (h : backend W) (Safe : string -> string) (s : S3Store)
        (ctx : Context) (key : string) (rounds : nat) (w : W) :
  result (run h (Lock Safe rounds s ctx key) w) = Some None ->
  exists (pre : list event) (r : GetObjectOutput + error),
    events (run h (Lock Safe rounds s ctx key) w)
    = (pre ++ [EvGetObject
                 {| get_Bucket := bucket s;
                    get_Key := Filename s (lockFileName Safe s key) |} r;
               EvPutObject {| put_Bucket := bucket s;
                              put_Key := lockFileName Safe s key;
                              put_Body := "lock" |} None])%list
    /\ found r = false.
Proof.
  unfold Lock. rewrite run_bind, run_perform. simpl.
  pose proof (Lock_loop_nil h s key (lockFileName Safe s key)
                            (h _ Now w).1 rounds (h _ Now w).2) as H.
  destruct (run h (Lock_loop rounds s key _ _) _) as [[r w2] t2].
  unfold result, events in *. simpl in *. intros Hres.
  destruct (H Hres) as (pre & r' & -> & Hf).
  exists (EvNow (h _ Now w).1 :: pre), r'. split; [reflexivity | exact Hf].
Qed.


Lemma Lock_returns_nil_only_after_writing_witness :
  exists (pre : list event) (r : GetObjectOutput + error),
    events (run s3 (Lock plain_Safe 1 example_store background "example.com")
                empty_bucket)
    = (pre ++ [EvGetObject
                 {| get_Bucket := bucket example_store;
                    get_Key := Filename example_store
                                 (lockFileName plain_Safe example_store
                                               "example.com") |} r;
               EvPutObject
                 {| put_Bucket := bucket example_store;
                    put_Key := lockFileName plain_Safe example_store
                                 "example.com";
                    put_Body := "lock" |} None])%list
    /\ found r = false.
Proof.
  apply (Lock_returns_nil_only_after_writing Bucket s3 plain_Safe
           example_store background "example.com" 1 empty_bucket).
  reflexivity.
Defined.

(** ** [Lock] on the reference backend with no other client *)

Lemma run_s3_Lock_free (Safe : string -> string) (s : S3Store)
      (ctx : Context) (key : string) (w : Bucket) :
  objects w !! Filename s (lockFileName Safe s key) = None ->
  run s3 (Lock Safe 1 s ctx key) w
  = (Some None,
     set_objects
       (<[lockFileName Safe s key :=
            {| obj_Body := "lock";
               obj_Modified := (clock w + Z.max 0 (latency w)
                                + Z.max 0 (latency w))%Z |}]>
          (objects w))
       (tick (latency w) (tick (latency w) w)),
     [EvNow (clock w);
      EvGetObject {| get_Bucket := bucket s;
                     get_Key := Filename s (lockFileName Safe s key) |}
                  (inr noSuchKey);
      EvPutObject {| put_Bucket := bucket s;
                     put_Key := lockFileName Safe s key;
                     put_Body := "lock" |} None]).
Proof.
  intros Hnone. unfold Lock. rewrite run_bind, run_perform.
  rewrite run_Lock_loop_S, run_Lock_round, run_createLockFile. simpl.
  rewrite Hnone. reflexivity.
Qed.

Lemma round_behind_shadow (s : S3Store) (key lockFile : string)
      (start : Time) (w : Bucket) :
  Filename s lockFile <> lockFile ->
  behind_shadow s lockFile start w ->
  exists (w' : Bucket) (t : list event),
    run s3 (Lock_round s key lockFile start) w = (Continue, w', t)
    /\ behind_shadow s lockFile start w'.
Proof.
  intros Hne [[sh Hsh] Hold].
  rewrite run_Lock_round, run_createLockFile. simpl. rewrite Hsh. simpl.
  unfold after_exists. simpl.
  destruct (objects w !! lockFile) as [o |] eqn:Eo; simpl.
  - specialize (Hold o eq_refl).
    destruct (staleLockDuration <? _)%Z eqn:Estale; simpl.
    + eexists _, _. split; [reflexivity |]. split; simpl.
      * rewrite lookup_delete_ne by (intros E; apply Hne; symmetry; exact E).
        exists sh. exact Hsh.
      * intros o'. rewrite lookup_delete_eq. discriminate.
    + apply Z.ltb_ge in Estale.
      assert (Eguard : (staleLockDuration * 2
                        <? clock w + Z.max 0 (latency w)
                           + Z.max 0 (latency w) - start)%Z = false).
      { apply Z.ltb_ge.
        assert (0 <= staleLockDuration)%Z by (vm_compute; discriminate).
        lia. }
      rewrite Eguard.
      eexists _, _. split; [reflexivity |]. split; simpl.
      * exists sh. exact Hsh.
      * intros o' Eo'. rewrite Eo in Eo'. injection Eo' as <-. exact Hold.
  - eexists _, _. split; [reflexivity |]. split; simpl.
    + exists sh. exact Hsh.
    + intros o' Eo'. rewrite Eo in Eo'. discriminate.
Qed.

Lemma loop_behind_shadow (s : S3Store) (key lockFile : string)
      (start : Time) (rounds : nat) (w : Bucket) :
  Filename s lockFile <> lockFile ->
  behind_shadow s lockFile start w ->
  result (run s3 (Lock_loop rounds s key lockFile start) w) = None.
Proof.
  intros Hne. revert w. induction rounds as [| rounds IH]; intros w Hw.
  - reflexivity.
  - rewrite run_Lock_loop_S.
    destruct (round_behind_shadow s key lockFile start w Hne Hw)
      as (w' & t & -> & Hw').
    specialize (IH w' Hw').
    destruct (run s3 (Lock_loop rounds s key lockFile start) w')
      as [[r w2] t2].
    exact IH.
Qed.

(** X10.  On the reference backend with no other client, under a prefix
    that is one name, for a key whose sanitized form holds no separator and
    a marker, if any, that is not dated after the call: [Lock] returns nil
    in its first round when no object sits at the path [Exists] resolves
    the lock file to, and otherwise it has not returned after any number
    of rounds; it never returns an error. *)
Theorem Lock_on_a_quiet_bucket
        (Safe : string -> string) (s : S3Store) (ctx : Context)
        (key : string) (rounds : nat) (w : Bucket) :
  segment_str (prefix s) ->
  no_sep (list_ascii_of_string (Safe key)) ->
  (forall o : Object,
      objects w !! lockFileName Safe s key = Some o ->
      (obj_Modified o <= clock w)%Z) ->
  result (run s3 (Lock Safe (S rounds) s ctx key) w)
  = match objects w !! Filename s (lockFileName Safe s key) with
    | None => Some None
    | Some _ => None
    end.
Proof.
  intros HP Hs Hold.
  pose proof (lock_path_shadow_differs Safe s key HP Hs) as Hne.
  destruct (objects w !! Filename s (lockFileName Safe s key)) as [sh |] eqn:E.
  - generalize (S rounds). intros n.
    unfold Lock. rewrite run_bind, run_perform. simpl.
    pose proof (loop_behind_shadow s key (lockFileName Safe s key) (clock w)
                  n w Hne) as H.
    destruct (run s3 (Lock_loop n s key _ _) w) as [[r w2] t2].
    apply H. split; [exists sh; exact E | exact Hold].
  - change (S rounds) with (1 + rounds)%nat. apply Lock_more.
    rewrite (run_s3_Lock_free Safe s ctx key w E). reflexivity.
Qed.

Lemma Lock_on_a_quiet_bucket_witness :
  result (run s3 (Lock plain_Safe 5 example_store background "example.com")
              (marked_bucket (clock empty_bucket))) = None.
Proof.
  refine (Lock_on_a_quiet_bucket plain_Safe example_store background
            "example.com" 4 (marked_bucket (clock empty_bucket)) _ _ _).
  - split; reflexivity.
  - reflexivity.
  - intros o H. vm_compute in H. injection H as <-. vm_compute. discriminate.
Defined.

(** X11.  On the reference backend, where no object sits at the path
    [Exists] resolves the lock file to: [Lock] returns nil; [Stat] of the
    lock file then finds the four-byte marker, dated two request latencies
    after the call; a second [Lock] of the same key returns nil as well;
    after [Unlock], [Stat] of the lock file fails with NoSuchKey, and when
    there was no marker before, the objects are what they were. *)
Theorem Lock_then_Stat_then_Unlock
        (Safe : string -> string) (s : S3Store) (ctx : Context)
        (key : string) (w : Bucket) :
  segment_str (prefix s) ->
  no_sep (list_ascii_of_string (Safe key)) ->
  objects w !! Filename s (lockFileName Safe s key) = None ->
  result (run s3 (Lock Safe 1 s ctx key) w) = Some None
  /\ result (run s3 (Stat s (lockFileName Safe s key))
                 (final (run s3 (Lock Safe 1 s ctx key) w)))
     = ({| info_Key := lockFileName Safe s key; info_Size := 4;
           info_Modified := (clock w + 2 * Z.max 0 (latency w))%Z;
           info_IsTerminal := true |}, None)
  /\ result (run s3 (Lock Safe 1 s ctx key)
                 (final (run s3 (Lock Safe 1 s ctx key) w))) = Some None
  /\ (result (run s3 (Stat s (lockFileName Safe s key))
                  (final (run s3 (Lock Safe 1 s ctx key ;;;
                                  Unlock Safe s key) w)))).2
     = Some noSuchKey
  /\ (objects w !! lockFileName Safe s key = None ->
      objects (final (run s3 (Lock Safe 1 s ctx key ;;;
                              Unlock Safe s key) w))
      = objects w).
Proof.
  intros HP Hs Hnone.
  pose proof (lock_path_shadow_differs Safe s key HP Hs) as Hne.
  rewrite run_bind, !(run_s3_Lock_free Safe s ctx key w Hnone).
  split; [reflexivity |]. split; [| split; [| split]].
  - rewrite run_Stat. unfold result, final. simpl.
    rewrite lookup_insert_eq. simpl.
    replace (clock w + 2 * Z.max 0 (latency w))%Z
      with (clock w + Z.max 0 (latency w) + Z.max 0 (latency w))%Z by lia.
    reflexivity.
  - rewrite run_s3_Lock_free; [reflexivity |].
    unfold final. simpl.
    rewrite lookup_insert_ne by (intros E; apply Hne; symmetry; exact E).
    exact Hnone.
  - unfold Unlock. rewrite run_deleteLockFile, run_Stat.
    unfold result, final. simpl. rewrite lookup_delete_eq. reflexivity.
  - intros Habsent. unfold Unlock. rewrite run_deleteLockFile.
    unfold final. simpl. rewrite delete_insert_eq.
    apply delete_id. exact Habsent.
Qed.

Lemma Lock_then_Stat_then_Unlock_witness :
  (result (run s3 (Stat example_store
                        (lockFileName plain_Safe example_store "example.com"))
               (final (run s3 (Lock plain_Safe 1 example_store background
                                    "example.com" ;;;
                               Unlock plain_Safe example_store "example.com")
                           empty_bucket)))).2
  = Some noSuchKey.
Proof.
  refine (proj1 (proj2 (proj2 (proj2
            (Lock_then_Stat_then_Unlock plain_Safe example_store background
               "example.com" empty_bucket _ _ _))))).
  - split; reflexivity.
  - reflexivity.
  - reflexivity.
Defined.


(** ** The first round of [Lock] *)

Section FirstRound.

Context {W : Type} (h : backend W).
Variables (Safe : string -> string) (s : S3Store) (ctx : Context)
          (key : string).

Lemma Lock_first_round (rounds : nat) (w w2 : W) (err : option error)
      (t : list event) :
  run h (Lock_round s key (lockFileName Safe s key) (h _ Now w).1)
      (h _ Now w).2 = (Return err, w2, t) ->
  run h (Lock Safe (S rounds) s ctx key) w
  = (Some err, w2, EvNow (h _ Now w).1 :: t).
Proof.
  intros Hr. unfold Lock. rewrite run_bind, run_perform, run_Lock_loop_S.
  cbn [fst snd]. rewrite Hr. reflexivity.
Qed.

End FirstRound.

(** X12.  On a backend that refuses every read with an error other than
    NoSuchKey, [Lock] returns in its first round with the error
    [accessing lock file: ...] made of the answer to [Stat]; it has sent
    the read of [Exists] and the read of [Stat] and no write. *)
Theorem Lock_fails_fast_when_reads_are_refused
        (W : Type) (h : backend W) (Safe : string -> string) (s : S3Store)
        (ctx : Context) (key : string) (rounds : nat) (w : W) :
  (forall (input : GetObjectInput) (w' : W),
      exists e : error,
        (h _ (GetObject input) w').1 = inr e /\ As_NoSuchKey e = false) ->
  exists e1 e2 : error,
    result (run h (Lock Safe (S rounds) s ctx key) w)
    = Some (Some (errorString ("accessing lock file: " ++ Error e2)))
    /\ events (run h (Lock Safe (S rounds) s ctx key) w)
       = [EvNow (h _ Now w).1;
          EvGetObject {| get_Bucket := bucket s;
                         get_Key := Filename s (lockFileName Safe s key) |}
                      (inr e1);
          EvGetObject {| get_Bucket := bucket s;
                         get_Key := lockFileName Safe s key |} (inr e2)].
Proof.
  intros Hrefused.
  set (lf := lockFileName Safe s key).
  set (w0 := (h _ Now w).2).
  destruct (Hrefused {| get_Bucket := bucket s; get_Key := Filename s lf |} w0)
    as (e1 & E1 & N1).
  destruct (Hrefused {| get_Bucket := bucket s; get_Key := lf |}
                     (h _ (get_at s (Filename s lf)) w0).2)
    as (e2 & E2 & N2).
  exists e1, e2.
  erewrite (Lock_first_round h Safe s ctx key rounds w).
  - split; reflexivity.
  - fold lf w0. rewrite run_Lock_round, run_createLockFile. cbn zeta.
    unfold get_at in *. rewrite E1. cbn [found]. rewrite N1. cbn [negb].
    cbn [Error String.eqb negb]. 
    change (negb (String.eqb (Error (errorString lockFileExists))
                             lockFileExists)) with false.
    cbn iota. unfold after_exists, get_at. cbn zeta. rewrite E2, N2.
    reflexivity.
Qed.

Lemma Lock_fails_fast_when_reads_are_refused_witness :
  exists e1 e2 : error,
    result (run denied (Lock plain_Safe 1 example_store background
                             "example.com") empty_bucket)
    = Some (Some (errorString ("accessing lock file: " ++ Error e2)))
    /\ events (run denied (Lock plain_Safe 1 example_store background
                                "example.com") empty_bucket)
       = [EvNow (denied _ Now empty_bucket).1;
          EvGetObject
            {| get_Bucket := bucket example_store;
               get_Key := Filename example_store
                            (lockFileName plain_Safe example_store
                                          "example.com") |}
            (inr e1);
          EvGetObject
            {| get_Bucket := bucket example_store;
               get_Key := lockFileName plain_Safe example_store
                            "example.com" |} (inr e2)].
Proof.
  apply (Lock_fails_fast_when_reads_are_refused Bucket denied plain_Safe
           example_store background "example.com" 0 empty_bucket).
  intros input w'. exists (OpError "AccessDenied: Access Denied").
  split; reflexivity.
Defined.

(** X13.  When [Exists] sees no lock file and the backend refuses the
    write of the marker with an error whose text is not [lockFileExists],
    [Lock] prints the error and returns [creating lock file: ...] in its
    first round, without reading the marker. *)
Theorem Lock_reports_a_refused_write
        (W : Type) (h : backend W) (Safe : string -> string) (s : S3Store)
        (ctx : Context) (key : string) (rounds : nat) (w : W) (e : error) :
  let lockFile := lockFileName Safe s key in
  let g := h _ (get_at s (Filename s lockFile)) (h _ Now w).2 in
  found g.1 = false ->
  (h _ (put_lock s lockFile) g.2).1 = Some e ->
  Error e <> lockFileExists ->
  result (run h (Lock Safe (S rounds) s ctx key) w)
  = Some (Some (errorString ("creating lock file: " ++ Error e)))
  /\ events (run h (Lock Safe (S rounds) s ctx key) w)
     = [EvNow (h _ Now w).1;
        EvGetObject {| get_Bucket := bucket s;
                       get_Key := Filename s lockFile |} g.1;
        EvPutObject {| put_Bucket := bucket s; put_Key := lockFile;
                       put_Body := "lock" |} (Some e);
        EvPrintln (Error e)].
Proof.
  intros lockFile g Hfound Hput Hmsg.
  erewrite (Lock_first_round h Safe s ctx key rounds w).
  - split; reflexivity.
  - fold lockFile. rewrite run_Lock_round, run_createLockFile. cbn zeta.
    fold g. rewrite Hfound, Hput.
    apply String.eqb_neq in Hmsg. rewrite Hmsg. reflexivity.
Qed.

Lemma Lock_reports_a_refused_write_witness :
  result (run read_only (Lock plain_Safe 1 example_store background
                              "example.com") empty_bucket)
  = Some (Some (errorString
                  "creating lock file: AccessDenied: Access Denied")).
Proof.
  refine (proj1 (Lock_reports_a_refused_write Bucket read_only plain_Safe
                   example_store background "example.com" 0 empty_bucket
                   (OpError "AccessDenied: Access Denied") _ _ _)).
  - reflexivity.
  - reflexivity.
  - vm_compute. discriminate.
Defined.

(** X14.  [fileLockIsStale] reads the clock once and is true exactly when
    the reading lies more than two hours after the modification time, in
    unbounded arithmetic: the saturation of [time.Since] does not change
    the answer, and a marker that is exactly two hours old is not
    stale. *)
Theorem fileLockIsStale_strictly_older_than_two_hours
        (W : Type) (h : backend W) (s : S3Store) (info : KeyInfo) (w : W) :
  (result (run h (fileLockIsStale s info) w) = true
   <-> (2 * 3600 * 1000000000 < (h _ Now w).1 - info_Modified info)%Z)
  /\ final (run h (fileLockIsStale s info) w) = (h _ Now w).2
  /\ events (run h (fileLockIsStale s info) w) = [EvNow (h _ Now w).1].
Proof.
  rewrite run_fileLockIsStale. unfold result, final, events. simpl.
  split; [| split; reflexivity].
  rewrite Z.ltb_lt. reflexivity.
Qed.

(** X15.  A round of [Lock] in which [Exists] reports the lock file,
    [Stat] finds a marker that is not stale and no more than twice
    [staleLockDuration] has passed since the start, sends these two reads,
    reads the clock twice, sleeps for one second and goes on to the next
    round; it writes and deletes nothing. *)
Theorem Lock_round_polls_after_a_second
        (W : Type) (h : backend W) (s : S3Store) (key lockFile : string)
        (start : Time) (w : W) (out : GetObjectOutput) :
  let c := h _ (get_at s (Filename s lockFile)) w in
  let g := h _ (get_at s lockFile) c.2 in
  let n1 := h _ Now g.2 in
  let n2 := h _ Now n1.2 in
  found c.1 = true ->
  g.1 = inl out ->
  (n1.1 - LastModified out <= staleLockDuration)%Z ->
  (n2.1 - start <= staleLockDuration * 2)%Z ->
  run h (Lock_round s key lockFile start) w
  = (Continue, (h _ (Sleep 1000000000%Z) n2.2).2,
     [EvGetObject {| get_Bucket := bucket s;
                     get_Key := Filename s lockFile |} c.1;
      EvGetObject {| get_Bucket := bucket s; get_Key := lockFile |} g.1;
      EvNow n1.1; EvNow n2.1; EvSleep 1000000000%Z]).
Proof.
  intros c g n1 n2 Hfound Hg Hfresh Hbudget.
  rewrite run_Lock_round, run_createLockFile. cbn zeta. fold c.
  rewrite Hfound.
  change (negb (String.eqb (Error (errorString lockFileExists))
                           lockFileExists)) with false.
  cbn iota. unfold after_exists. cbn zeta. fold g. rewrite Hg.
  fold n1. apply Z.ltb_ge in Hfresh. rewrite Hfresh.
  fold n2. apply Z.ltb_ge in Hbudget. rewrite Hbudget.
  reflexivity.
Qed.

Lemma Lock_round_polls_after_a_second_witness :
  result (run s3 (Lock_round example_store "example.com"
                             "certmagic/locks/example.com.lock"
                             (clock empty_bucket))
              (marked_bucket (clock empty_bucket))) = Continue.
Proof.
  refine (f_equal result
            (Lock_round_polls_after_a_second Bucket s3 example_store
               "example.com" "certmagic/locks/example.com.lock"
               (clock empty_bucket) (marked_bucket (clock empty_bucket))
               (output_of {| obj_Body := "lock";
                             obj_Modified := clock empty_bucket |})
               _ _ _ _)).
  - reflexivity.
  - reflexivity.
  - vm_compute. discriminate.
  - vm_compute. discriminate.
Defined.


(** ** [List] and the two prefixes *)

Lemma HasPrefix_comparable (a : string) :
  forall k b : string,
    strings.HasPrefix k a = true -> strings.HasPrefix k b = true ->
    strings.HasPrefix a b = true \/ strings.HasPrefix b a = true.
Proof.
  induction a as [| x a IH]; intros k b Ha Hb.
  - right. destruct b; reflexivity.
  - destruct b as [| y b]; [left; reflexivity |].
    destruct k as [| c k]; [discriminate |].
    simpl in Ha, Hb.
    apply andb_true_iff in Ha as [Hx Ha].
    apply andb_true_iff in Hb as [Hy Hb].
    apply Ascii.eqb_eq in Hx, Hy. subst x y.
    simpl. rewrite Ascii.eqb_refl. simpl.
    exact (IH k b Ha Hb).
Qed.

Lemma HasPrefix_trans (b : string) :
  forall k a : string,
    strings.HasPrefix k a = true -> strings.HasPrefix a b = true ->
    strings.HasPrefix k b = true.
Proof.
  induction b as [| y b IH]; intros k a Hka Hab; [reflexivity |].
  destruct a as [| x a]; [discriminate |].
  destruct k as [| c k]; [discriminate |].
  simpl in *.
  apply andb_true_iff in Hka as [Hx Hka].
  apply andb_true_iff in Hab as [Hy Hab].
  apply Ascii.eqb_eq in Hx, Hy. subst.
  rewrite Ascii.eqb_refl. simpl. exact (IH k a Hka Hab).
Qed.

Lemma HasPrefix_refl (a : string) : strings.HasPrefix a a = true.
Proof.
  induction a as [| c a IH]; [reflexivity |].
  simpl. rewrite Ascii.eqb_refl. exact IH.
Qed.

Lemma Filename_begins_with_prefix (s : S3Store) (key : string) :
  segment_str (prefix s) -> climbs key = false ->
  strings.HasPrefix (Filename s key) (prefix s) = true.
Proof.
  intros HP Hclimb.
  destruct (Filename_keeps_prefix s key HP Hclimb) as [-> | H].
  - apply HasPrefix_refl.
  - apply (HasPrefix_trans _ _ _ H). apply HasPrefix_app.
Qed.

(** X16.  Under a prefix that is one name, [List] of a prefix that stays
    below it returns no key when neither the store's prefix begins with
    the given prefix nor the given prefix with the store's, on every
    backend whose listing holds only keys that begin with the prefix it was
    asked for. *)
Theorem List_needs_comparable_prefixes
        (W : Type) (h : backend W) (s : S3Store) (prefix0 : string)
        (recursive : bool) (w : W) (out : ListObjectsOutput) :
  segment_str (prefix s) ->
  climbs prefix0 = false ->
  strings.HasPrefix (prefix s) prefix0 = false ->
  strings.HasPrefix prefix0 (prefix s) = false ->
  (h _ (ListObjects {| list_Bucket := bucket s;
                       list_Prefix := Filename s prefix0 |}) w).1 = inl out ->
  Forall (fun k => strings.HasPrefix (Key k) (Filename s prefix0) = true)
         (Contents out) ->
  result (run h (List s prefix0 recursive) w) = ([], None).
Proof.
  intros HP Hclimb Hn1 Hn2 E Hhonest.
  rewrite run_List, E, List_keys_filter. f_equal.
  induction Hhonest as [| k l Hk _ IH]; [reflexivity |].
  simpl. rewrite filter_cons.
  destruct (strings.HasPrefix (Key k) prefix0) eqn:Eraw.
  - exfalso.
    pose proof (HasPrefix_trans _ _ _ Hk
                  (Filename_begins_with_prefix s prefix0 HP Hclimb)) as HkP.
    destruct (HasPrefix_comparable _ _ _ HkP Eraw) as [H | H]; congruence.
  - rewrite decide_False by discriminate. exact IH.
Qed.

Lemma List_needs_comparable_prefixes_witness :
  result (run s3 (List example_store "example.com" true)
              (final (run s3 (Store example_store "example.com/cert.pem"
                                    "PEM") empty_bucket)))
  = ([], None).
Proof.
  refine (List_needs_comparable_prefixes Bucket s3 example_store
            "example.com" true _ _ _ _ _ _ eq_refl _).
  - split; reflexivity.
  - reflexivity.
  - reflexivity.
  - reflexivity.
  - vm_compute. repeat constructor.
Defined.

Lemma Filename_empty_key (s : S3Store) :
  segment_str (prefix s) -> Filename s "" = prefix s.
Proof.
  intros HP.
  rewrite (Filename_normal s "" [] HP eq_refl).
  unfold path_of. simpl. rewrite app_nil_r.
  apply string_of_list_ascii_of_string.
Qed.

(** X17.  Under a prefix that is one name, [List] of the empty prefix
    returns, on the reference backend, each stored key that begins with
    the store's prefix, once, and nothing else. *)
Theorem List_of_the_empty_prefix
        (s : S3Store) (recursive : bool) (w : Bucket) :
  segment_str (prefix s) ->
  exists keys : list string,
    result (run s3 (List s "" recursive) w) = (keys, None)
    /\ NoDup keys
    /\ forall k : string,
        k ∈ keys
        <-> is_Some (objects w !! k)
            /\ strings.HasPrefix k (prefix s) = true.
Proof.
  intros HP. rewrite run_List. simpl. eexists. split; [reflexivity |].
  rewrite List_keys_filter, map_Key_listed, (Filename_empty_key s HP). split.
  - apply NoDup_filter, NoDup_filter, NoDup_fst_map_to_list.
  - intros k. rewrite !list_elem_of_filter. simpl.
    rewrite list_elem_of_fmap. split.
    + intros (_ & Hres & ([k' o] & -> & Hin)).
      apply elem_of_map_to_list in Hin. simpl in *.
      split; [exists o; exact Hin | exact Hres].
    + intros ([o Ho] & Hres). split; [destruct k; reflexivity |].
      split; [exact Hres |]. exists (k, o). split; [reflexivity |].
      apply elem_of_map_to_list. exact Ho.
Qed.

Lemma List_of_the_empty_prefix_witness :
  exists keys : list string,
    result (run s3 (List example_store "" false) empty_bucket) = (keys, None)
    /\ NoDup keys
    /\ forall k : string,
        k ∈ keys
        <-> is_Some (objects empty_bucket !! k)
            /\ strings.HasPrefix k (prefix example_store) = true.
Proof.
  apply (List_of_the_empty_prefix example_store false empty_bucket).
  split; reflexivity.
Defined.


(** ** Checks of the library model against Go's behaviour *)

Example Clean_table :
  forallb (fun t => String.eqb (filepath.Clean t.1) t.2)
          [("abc", "abc"); ("abc/def", "abc/def"); ("a/b/c", "a/b/c");
           (".", "."); ("..", ".."); ("../..", "../..");
           ("../../abc", "../../abc"); ("/abc", "/abc"); ("/", "/");
           ("", ".");
           ("abc/", "abc"); ("abc/def/", "abc/def"); ("a/b/c/", "a/b/c");
           ("./", "."); ("../", ".."); ("../../", "../.."); ("/abc/", "/abc");
           ("abc//def//ghi", "abc/def/ghi"); ("abc//", "abc");
           ("abc/./def", "abc/def"); ("/./abc/def", "/abc/def");
           ("abc/.", "abc");
           ("abc/def/ghi/../jkl", "abc/def/jkl");
           ("abc/def/../ghi/../jkl", "abc/jkl");
           ("abc/def/..", "abc"); ("abc/def/../..", ".");
           ("/abc/def/../..", "/"); ("abc/def/../../..", "..");
           ("/abc/def/../../..", "/");
           ("abc/def/../../../ghi/jkl/../../../mno", "../../mno");
           ("/../abc", "/abc");
           ("abc/./../def", "def"); ("abc//./../def", "def");
           ("abc/../../././../def", "../../def")]
  = true.
Proof. vm_compute. reflexivity. Qed.

Example Join_table :
  forallb (fun t => String.eqb (filepath.Join t.1) t.2)
          [([], ""); ([""], ""); (["/"], "/"); (["a"], "a");
           (["a"; "b"], "a/b"); (["a"; ""], "a"); ([""; "b"], "b");
           (["/"; "a"], "/a"); (["/"; "a/b"], "/a/b"); (["/"; ""], "/");
           (["/a"; "b"], "/a/b"); (["a"; "/b"], "a/b");
           (["/a"; "/b"], "/a/b"); (["a/"; "b"], "a/b"); (["a/"; ""], "a");
           ([""; ""], ""); (["//"; "a"], "/a")]
  = true.
Proof. vm_compute. reflexivity. Qed.

Example Duration_String_table :
  forallb (fun t => String.eqb (time.String_ t.2) t.1)
          [("0s", 0%Z); ("1ns", (1 * time.Nanosecond)%Z);
           ("2.2ms", (2200 * time.Microsecond)%Z);
           ("3.3s", (3300 * time.Millisecond)%Z);
           ("4m5s", (4 * time.Minute + 5 * time.Second)%Z);
           ("4m5.001s", (4 * time.Minute + 5001 * time.Millisecond)%Z);
           ("5h6m7.001s",
            (5 * time.Hour + 6 * time.Minute + 7001 * time.Millisecond)%Z);
           ("8m0.000000001s", (8 * time.Minute + 1 * time.Nanosecond)%Z);
           ("2562047h47m16.854775807s", (2 ^ 63 - 1)%Z);
           ("-2562047h47m16.854775808s", (- 2 ^ 63)%Z)]
  = true.
Proof. vm_compute. reflexivity. Qed.

(** 1.1 microseconds: the micro sign is the two bytes C2 B5. *)
Example Duration_String_micro :
  time.String_ (1100 * time.Nanosecond)%Z
  = String.append "1.1" (String (ascii_of_nat 194)
                                (String (ascii_of_nat 181) "s")).
Proof. reflexivity. Qed.

Example lockFileName_t1 :
  lockFileName plain_Safe (NewS3Store "b" "r") "example.com"
  = "certmagic/locks/example.com.lock".
Proof. reflexivity. Qed.

Example Lock_t1 :
  result (run s3 (Lock plain_Safe 1 (NewS3Store "b" "r")
                       {| ctx_Err := fun _ => None |} "example.com")
              empty_bucket) = Some None.
Proof. vm_compute. reflexivity. Qed.
